(** * montecarlo: weighted dice, games and result analysis

    A shallow embedding of [montecarlo.py] (classes [Die], [Game] and
    [Analyzer]) together with the parts of numpy and pandas the three
    classes call into, followed by the properties established about them.

    Conventions.
    - A Python exception is a value of [exn]; a call that may raise returns
      a [result].  Methods that read or write [self] or the global random
      generator return the state they leave behind next to their result, so
      that what survives an exception is visible.
    - numpy's float64 is Rocq's primitive binary64 [float]; arithmetic is the
      IEEE arithmetic of [PrimFloat].
    - The face type is a parameter with Python's [==] and [<=] on it. *)

From Stdlib Require Import String ZArith Arith List Bool Floats Lia.
From Stdlib Require Import Permutation Sorted.
Import ListNotations.

Set Implicit Arguments.

(** ** Exceptions and results *)

Inductive exn : Set :=
| TypeError
| ValueError
| IndexError
| AttributeError
| OverflowError.

Inductive result (T : Type) : Type :=
| Ok (v : T)
| Raise (e : exn).

Arguments Ok {T} v.
Arguments Raise {T} e.

(** ** Faces

    Faces are "strings or numbers": any type with Python's equality and a
    total order used by [sorted]. *)

Class Face (A : Type) : Type := {
  face_eqb : A -> A -> bool;
  face_leb : A -> A -> bool;
  face_eqb_eq : forall x y, face_eqb x y = true <-> x = y;
  face_leb_total : forall x y, face_leb x y = true \/ face_leb y x = true;
  face_leb_trans : forall x y z,
      face_leb x y = true -> face_leb y z = true -> face_leb x z = true;
  face_leb_antisym : forall x y,
      face_leb x y = true -> face_leb y x = true -> x = y
}.

#[export] Program Instance Face_Z : Face Z := {
  face_eqb := Z.eqb;
  face_leb := Z.leb
}.
Next Obligation. apply Z.eqb_eq. Qed.
Next Obligation. destruct (Z.leb_spec x y); [left | right]; auto. apply Z.leb_le. lia. Qed.
Next Obligation. apply Z.leb_le. apply Z.leb_le in H, H0. lia. Qed.
Next Obligation. apply Z.leb_le in H, H0. lia. Qed.

(** ** float64 arrays (numpy) *)

Module Np.

Local Open Scope float_scope.

(** [a.sum()] is [np.add.reduce]: the result starts at the identity 0.0 and
    the array is added to it by numpy's pairwise summation
    ([DOUBLE_pairwise_sum]).

    Fewer than 8 elements are added left to right, starting from 0.0. *)
Definition sum_small (a : list float) : float := fold_left PrimFloat.add a 0.

(** From 8 to 128 elements: eight accumulators take the first eight
    elements and then one element each of every further full block of
    eight; they are combined as
    [((r0 + r1) + (r2 + r3)) + ((r4 + r5) + (r6 + r7))] and the elements
    left over (fewer than eight) are added one by one. *)
Fixpoint accumulate8 (r0 r1 r2 r3 r4 r5 r6 r7 : float) (a : list float)
  : float :=
  match a with
  | x0 :: x1 :: x2 :: x3 :: x4 :: x5 :: x6 :: x7 :: rest =>
      accumulate8 (r0 + x0) (r1 + x1) (r2 + x2) (r3 + x3)
                  (r4 + x4) (r5 + x5) (r6 + x6) (r7 + x7) rest
  | _ =>
      fold_left PrimFloat.add a
                (((r0 + r1) + (r2 + r3)) + ((r4 + r5) + (r6 + r7)))
  end.

Definition sum_block (a : list float) : float :=
  match a with
  | x0 :: x1 :: x2 :: x3 :: x4 :: x5 :: x6 :: x7 :: rest =>
      accumulate8 x0 x1 x2 x3 x4 x5 x6 x7 rest
  | _ => sum_small a
  end.

(** More than 128 elements: the array is cut at [n2 = n / 2] rounded down
    to a multiple of 8 and the sums of the two parts are added.  [fuel]
    bounds the depth of the recursion; the length of the array always
    suffices (see [pairwise_sum_fuel]). *)
Fixpoint pairwise_sum (fuel : nat) (a : list float) : float :=
  let n := length a in
  if (n <? 8)%nat then sum_small a
  else if (n <=? 128)%nat then sum_block a
  else
    match fuel with
    | O => sum_block a
    | S fuel' =>
        let n2 := (n / 2 - (n / 2) mod 8)%nat in
        pairwise_sum fuel' (firstn n2 a) + pairwise_sum fuel' (skipn n2 a)
    end.

Definition sum (a : list float) : float := 0 + pairwise_sum (length a) a.

(** NaN or an infinity. *)
Definition nonfinite (x : float) : bool :=
  match Prim2SF x with
  | S754_nan | S754_infinity _ => true
  | _ => false
  end.

(** [a / s] with a scalar [s], elementwise.  Division by zero yields
    infinities and NaN (numpy warns and carries on). *)
Definition divide (a : list float) (s : float) : list float :=
  map (fun x => x / s) a.

(** [kahan_sum] of mtrand: compensated summation seeded with the first
    element.  On an empty buffer the C code still reads [darr[0]], a cell
    nobody wrote; the model reads 0.0 there.  Whatever the cell holds,
    [choice] ends in an exception: ValueError from the checks on [p], or
    IndexError from [cdf[-1]] when the cell passes them. *)
Fixpoint kahan_loop (sum c : float) (darr : list float) : float :=
  match darr with
  | [] => sum
  | x :: rest =>
      let y := x - c in
      let t := sum + y in
      kahan_loop t ((t - sum) - y) rest
  end.

Definition kahan_sum (darr : list float) : float :=
  match darr with
  | [] => 0
  | x :: rest => kahan_loop x 0 rest
  end.

(** [np.sqrt(np.finfo(np.float64).eps)] = sqrt(2^-52) = 2^-26. *)
Definition atol : float := 0x1p-26.

(** [p.cumsum()]: running sums, [out[0] = p[0]], [out[i] = out[i-1] + p[i]]. *)
Fixpoint cumsum_from (acc : float) (p : list float) : list float :=
  match p with
  | [] => []
  | x :: rest => let s := acc + x in s :: cumsum_from s rest
  end.

Definition cumsum (p : list float) : list float :=
  match p with
  | [] => []
  | x :: rest => x :: cumsum_from x rest
  end.

(** numpy's ordering of floats for sorting and searching puts NaN last:
    [a < b || (b != b && a == a)]. *)
Definition less (a b : float) : bool :=
  (a <? b) || (is_nan b && negb (is_nan a)).

(** [arr.searchsorted(key, side='right')]: binary search,
    [while (min_idx < max_idx)] with [mid = min + ((max - min) >> 1)];
    the left half is kept when [key < arr[mid]].  [fuel] bounds the number
    of iterations; [max_idx - min_idx] iterations always suffice
    (see [binsearch_right_fuel]).  Each key is searched from the full
    interval; numpy starts from the bounds the previous key left, which
    finds the same index in a non-decreasing array. *)
Fixpoint binsearch_right (fuel : nat) (arr : list float) (key : float)
         (min_idx max_idx : nat) : nat :=
  match fuel with
  | O => min_idx
  | S fuel' =>
      if (min_idx <? max_idx)%nat then
        let mid_idx := (min_idx + (max_idx - min_idx) / 2)%nat in
        let mid_val := nth mid_idx arr nan in
        if less key mid_val
        then binsearch_right fuel' arr key min_idx mid_idx
        else binsearch_right fuel' arr key (mid_idx + 1) max_idx
      else min_idx
  end.

Definition searchsorted_right (arr : list float) (key : float) : nat :=
  binsearch_right (length arr) arr key 0 (length arr).

(** *** The global random generator

    [random_sample] yields doubles in the half-open interval [0, 1); the
    generator is an infinite tape of such doubles and drawing advances it. *)

Definition unit_float : Type :=
  { u : float | ((0 <=? u) && (u <? 1))%bool = true }.

Definition RandomState : Type := nat -> unit_float.

Definition random_sample (size : nat) (rs : RandomState)
  : list float * RandomState :=
  (map (fun i => proj1_sig (rs i)) (seq 0 size), fun i => rs (size + i)%nat).

(** [a[idx]] with an integer index array: IndexError when an index is out
    of bounds. *)
Fixpoint take {A : Type} (a : list A) (idx : list nat) : result (list A) :=
  match idx with
  | [] => Ok []
  | i :: rest =>
      match nth_error a i with
      | None => Raise IndexError
      | Some x =>
          match take a rest with
          | Ok xs => Ok (x :: xs)
          | Raise e => Raise e
          end
      end
  end.

(** The checks [RandomState.choice] makes on [p], in order:
    "probabilities contain NaN", "probabilities are not non-negative",
    "probabilities do not sum to 1". *)
Definition p_accepted (p : list float) : bool :=
  let p_sum := kahan_sum p in
  negb (is_nan p_sum)
  && negb (existsb (fun x => x <? 0) p)
  && negb (atol <? abs (p_sum - 1)).

(** [np.random.choice(a, size=size, p=p)] with replacement (the default),
    for a one-dimensional [a] and an integer [size]:
    - "'a' cannot be empty unless no samples are taken";
    - "'a' and 'p' must have same size";
    - the checks of [p_accepted];
    - [cdf = p.cumsum(); cdf /= cdf[-1]] (IndexError on an empty [cdf]);
    - [random_sample(size)] ("negative dimensions are not allowed");
    - [idx = cdf.searchsorted(uniform_samples, side='right')];
    - [a[idx]]. *)
Definition random_choice {A : Type} (a : list A) (size : Z) (p : list float)
           (rs : RandomState) : result (list A) * RandomState :=
  let pop_size := length a in
  if ((pop_size =? 0)%nat && negb (size =? 0)%Z)%bool then (Raise ValueError, rs)
  else if negb (length p =? pop_size)%nat then (Raise ValueError, rs)
  else if negb (p_accepted p) then (Raise ValueError, rs)
  else
    match cumsum p with
    | [] => (Raise IndexError, rs)
    | c0 :: cs =>
        let total := last cs c0 in
        let cdf := divide (c0 :: cs) total in
        if (size <? 0)%Z then (Raise ValueError, rs)
        else
          let (uniform_samples, rs') := random_sample (Z.to_nat size) rs in
          let idx := map (searchsorted_right cdf) uniform_samples in
          (take a idx, rs')
    end.

End Np.

(** ** Python values passed as a weight, and the builtin [float] *)

Inductive pyobj : Type :=
| PyFloat (x : float)     (* float, numpy.float64 *)
| PyInt (z : Z)           (* int, bool *)
| PyStr (s : string)      (* str *)
| PyNone.                 (* None and other objects without __float__ *)

(** Nearest binary64 to an integer (round to nearest, ties to even);
    infinite when the integer is out of range. *)
Definition Z2float (z : Z) : float :=
  SF2Prim (binary_normalize prec emax z 0 false).

(** ** Generic list helpers (Python's [set], [pd.unique], [==] on tuples) *)

Section Lists.

Variable K : Type.
Variable eqb : K -> K -> bool.

(** Membership with [==]. *)
Definition mem (x : K) (l : list K) : bool := existsb (eqb x) l.

(** Distinct values in order of first occurrence ([pd.unique]; its length
    is [len(set(l))]). *)
Fixpoint unique (l : list K) : list K :=
  match l with
  | [] => []
  | x :: rest => x :: filter (fun y => negb (eqb y x)) (unique rest)
  end.

(** Number of elements equal to [x]: [(row == x).sum()]. *)
Definition count (x : K) (l : list K) : nat :=
  length (filter (fun y => eqb y x) l).

(** Tuple equality. *)
Fixpoint list_eqb (l1 l2 : list K) : bool :=
  match l1, l2 with
  | [], [] => true
  | x :: t1, y :: t2 => eqb x y && list_eqb t1 t2
  | _, _ => false
  end.

End Lists.

(** ** The program *)

Section Montecarlo.

Context {A : Type} {FA : Face A}.

(** The interpreter's parser of float literals ([float("1.5")],
    [float("nan")], ...); [None] when it raises ValueError. *)
Variable parse_float : string -> option float.

(** The builtin [float(o)]. *)
Definition py_float (o : pyobj) : result float :=
  match o with
  | PyFloat x => Ok x
  | PyInt z =>
      let x := Z2float z in
      if is_infinity x then Raise OverflowError else Ok x
  | PyStr s =>
      match parse_float s with
      | Some x => Ok x
      | None => Raise ValueError
      end
  | PyNone => Raise TypeError
  end.

(** [sorted(x)]: a stable sort by [<=] (insertion sort). *)
Fixpoint insert_sorted (x : A) (l : list A) : list A :=
  match l with
  | [] => [x]
  | y :: rest => if face_leb x y then x :: l else y :: insert_sorted x rest
  end.

Fixpoint sorted (l : list A) : list A :=
  match l with
  | [] => []
  | x :: rest => insert_sorted x (sorted rest)
  end.

(** The order [sorted] arranges a row in. *)
Definition face_le (x y : A) : Prop := face_leb x y = true.

(** *** pandas tables *)

Inductive label : Type :=
| LInt (n : nat)
| LStr (s : string).

(** A DataFrame: the names of the index levels, one index entry per row
    (a tuple of labels, one per level), the column labels, and the cells
    row by row. *)
Record DataFrame : Type := mkDataFrame {
  index_names : list (option string);
  index : list (list label);
  columns : list label;
  values : list (list A)
}.

Definition shape (df : DataFrame) : nat * nat :=
  (length (index df), length (columns df)).

(** First cells and remainders of a list of columns. *)
Definition heads (cols : list (list A)) : list A :=
  flat_map (fun c => match c with [] => [] | x :: _ => [x] end) cols.

Definition tails (cols : list (list A)) : list (list A) :=
  map (@tl A) cols.

Fixpoint rows_of (n : nat) (cols : list (list A)) : list (list A) :=
  match n with
  | O => []
  | S m => heads cols :: rows_of m (tails cols)
  end.

(** [pd.DataFrame(d)] for a dict [d = {0: col0, 1: col1, ...}] of lists:
    one column per key, a RangeIndex as long as the columns, and
    "All arrays must be of the same length" otherwise.  An empty dict gives
    the empty frame (no rows, no columns). *)
Definition pd_DataFrame (cols : list (list A)) : result DataFrame :=
  match cols with
  | [] => Ok (mkDataFrame [None] [] [] [])
  | c :: _ =>
      let n := length c in
      if forallb (fun c' => (length c' =? n)%nat) cols then
        Ok (mkDataFrame [None]
                        (map (fun i => [LInt i]) (seq 0 n))
                        (map LInt (seq 0 (length cols)))
                        (rows_of n cols))
      else Raise ValueError
  end.

(** [df.index.name = name]. *)
Definition set_index_name (df : DataFrame) (name : string) : DataFrame :=
  mkDataFrame [Some name] (index df) (columns df) (values df).

(** [df.stack()]: one entry per cell, row by row, indexed by the row's
    index entry extended with the column label (no cell is missing, so
    none is dropped). *)
Definition stack (df : DataFrame) : list (list label * A) :=
  flat_map (fun ir : list label * list A =>
              map (fun cx : label * A => (fst ir ++ [fst cx], snd cx))
                  (combine (columns df) (snd ir)))
           (combine (index df) (values df)).

(** [df.apply(f, axis=1)]: [f] on each row, in index order. *)
Definition apply_rows {B : Type} (f : list A -> B) (df : DataFrame) : list B :=
  map f (values df).

(** [s.value_counts()] on a Series of tuples: every distinct key with its
    number of occurrences, larger counts first, keys of equal count in
    order of first occurrence. *)
Fixpoint insert_count (kc : list A * nat) (l : list (list A * nat))
  : list (list A * nat) :=
  match l with
  | [] => [kc]
  | kc' :: rest =>
      if (snd kc' <=? snd kc)%nat then kc :: l else kc' :: insert_count kc rest
  end.

Fixpoint sort_counts (l : list (list A * nat)) : list (list A * nat) :=
  match l with
  | [] => []
  | kc :: rest => insert_count kc (sort_counts rest)
  end.

(** The order [value_counts] arranges its entries in. *)
Definition count_ge (kc1 kc2 : list A * nat) : Prop :=
  (snd kc2 <= snd kc1)%nat.

Definition tuple_eqb : list A -> list A -> bool := list_eqb face_eqb.

Definition tally (s : list (list A)) : list (list A * nat) :=
  map (fun k => (k, count tuple_eqb k s)) (unique tuple_eqb s).

Definition value_counts (s : list (list A)) : list (list A * nat) :=
  sort_counts (tally s).

(** Look a key up in a table of counts. *)
Fixpoint lookup_count (k : list A) (t : list (list A * nat)) : option nat :=
  match t with
  | [] => None
  | (k', c) :: rest => if tuple_eqb k' k then Some c else lookup_count k rest
  end.

(** *** class Die *)

(** [self._df]: the frame indexed by face with the single column
    'weight', as its rows (face, weight) in face order. *)
Record Die : Type := mkDie { _df : list (A * float) }.

Definition die_faces (self : Die) : list A := map fst (_df self).
Definition die_weights (self : Die) : list float := map snd (_df self).

(** The argument of [Die(...)]: a numpy array or something else. *)
Inductive faces_arg : Type :=
| NdArray (faces : list A)
| NotNdArray.

Definition Die_init (faces : faces_arg) : result Die :=
  match faces with
  | NotNdArray => Raise TypeError
  | NdArray fs =>
      if negb (length (unique face_eqb fs) =? length fs)%nat
      then Raise ValueError
      else Ok (mkDie (map (fun f => (f, 1%float)) fs))
  end.

(** [self._df.at[face, 'weight'] = w]. *)
Definition set_at (face : A) (w : float) (df : list (A * float))
  : list (A * float) :=
  map (fun fw => if face_eqb (fst fw) face then (fst fw, w) else fw) df.

(** [change_weight]: the result and the die it leaves behind. *)
Definition change_weight (self : Die) (face : A) (new_weight : pyobj)
  : result unit * Die :=
  if negb (mem face_eqb face (die_faces self)) then (Raise IndexError, self)
  else
    match py_float new_weight with
    | Raise ValueError => (Raise TypeError, self)
    | Raise e => (Raise e, self)
    | Ok w => (Ok tt, mkDie (set_at face w (_df self)))
    end.

(** [roll]: the result, the die and the generator it leaves behind. *)
Definition roll (self : Die) (n : Z) (rs : Np.RandomState)
  : result (list A) * (Die * Np.RandomState) :=
  let faces := die_faces self in
  let weights := die_weights self in
  let probabilities := Np.divide weights (Np.sum weights) in
  let (r, rs') := Np.random_choice faces n probabilities rs in
  (r, (self, rs')).

(** The probabilities [roll] hands to the sampler, and whether the sampler
    accepts them. *)
Definition die_probabilities (self : Die) : list float :=
  Np.divide (die_weights self) (Np.sum (die_weights self)).

Definition rollable (self : Die) : bool :=
  Np.p_accepted (die_probabilities self).

(** [show]: a copy of the frame. *)
Definition Die_show (self : Die) : list (A * float) := _df self.

(** The weight the snapshot holds for a face. *)
Fixpoint weight_at (face : A) (df : list (A * float)) : option float :=
  match df with
  | [] => None
  | (f, w) :: rest => if face_eqb f face then Some w else weight_at face rest
  end.

(** *** class Game

    A game refers to its dice; nothing in [Game] or [Analyzer] writes to a
    die, so the record holds the dice as they are when a method is called
    (a weight changed from outside is a changed die in the list). *)

Record Game : Type := mkGame {
  dice : list Die;
  _results : option DataFrame
}.

Definition Game_init (dice : list Die) : Game := mkGame dice None.

(** The loop of [play]: [all_results[i] = die.roll(n_rolls)] for each die
    in turn; an exception leaves the loop at once. *)
Fixpoint roll_each (ds : list Die) (n_rolls : Z) (all_results : list (list A))
         (rs : Np.RandomState)
  : result (list (list A)) * (list Die * Np.RandomState) :=
  match ds with
  | [] => (Ok all_results, ([], rs))
  | die :: rest =>
      match roll die n_rolls rs with
      | (Raise e, (die', rs')) => (Raise e, (die' :: rest, rs'))
      | (Ok r, (die', rs')) =>
          let '(res, (rest', rs'')) :=
            roll_each rest n_rolls (all_results ++ [r]) rs' in
          (res, (die' :: rest', rs''))
      end
  end.

(** [play]: the result, the game and the generator it leaves behind. *)
Definition play (self : Game) (n_rolls : Z) (rs : Np.RandomState)
  : result unit * (Game * Np.RandomState) :=
  match roll_each (dice self) n_rolls [] rs with
  | (Raise e, (ds, rs')) => (Raise e, (mkGame ds (_results self), rs'))
  | (Ok all_results, (ds, rs')) =>
      match pd_DataFrame all_results with
      | Raise e => (Raise e, (mkGame ds (_results self), rs'))
      | Ok df => (Ok tt, (mkGame ds (Some (set_index_name df "roll_number"%string)), rs'))
      end
  end.

(** [show]: [None] before any play, else a copy of the table as stored
    ('wide') or stacked under the column 'outcome' ('narrow'). *)
Definition show (self : Game) (form : string) : result (option DataFrame) :=
  match _results self with
  | None => Ok None
  | Some results =>
      if String.eqb form "wide"%string then Ok (Some results)
      else if String.eqb form "narrow"%string then
        let narrow := stack results in
        Ok (Some (mkDataFrame [Some "roll_number"%string; Some "die_number"%string]
                              (map fst narrow)
                              [LStr "outcome"%string]
                              (map (fun e => [snd e]) narrow)))
      else Raise ValueError
  end.

(** *** class Analyzer *)

(** The table of [face_counts_per_roll]: columns are face values. *)
Record FaceCounts : Type := mkFaceCounts {
  fc_index : list (list label);
  fc_columns : list A;
  fc_values : list (list nat)
}.

Record Analyzer : Type := mkAnalyzer {
  game : Game;
  _df_results : option DataFrame;
  jackpot_count : option nat;
  face_counts : option FaceCounts;
  combo_counts : option (list (list A * nat));
  permutation_counts : option (list (list A * nat))
}.

(** The argument of [Analyzer(...)]: a Game or something else. *)
Inductive game_arg : Type :=
| IsGame (g : Game)
| NotGame.

Definition Analyzer_init (arg : game_arg) : result Analyzer :=
  match arg with
  | NotGame => Raise ValueError
  | IsGame g =>
      match show g "wide"%string with
      | Raise e => Raise e
      | Ok r => Ok (mkAnalyzer g r None None None None)
      end
  end.

(** Each method computes on [self._df_results]; on [None] the first
    attribute access ([df.apply], [df.values]) raises AttributeError.
    A result is also stored in its field of [self]. *)
Definition jackpot (self : Analyzer) : result nat * Analyzer :=
  match _df_results self with
  | None => (Raise AttributeError, self)
  | Some df =>
      let c := length (filter (fun b : bool => b)
                 (apply_rows (fun x => (length (unique face_eqb x) =? 1)%nat) df)) in
      (Ok c, mkAnalyzer (game self) (_df_results self) (Some c)
                        (face_counts self) (combo_counts self)
                        (permutation_counts self))
  end.

Definition face_counts_per_roll (self : Analyzer)
  : result FaceCounts * Analyzer :=
  match _df_results self with
  | None => (Raise AttributeError, self)
  | Some df =>
      let unique_faces := unique face_eqb (concat (values df)) in
      let t := mkFaceCounts
                 (index df) unique_faces
                 (map (fun row => map (fun face => count face_eqb face row)
                                      unique_faces)
                      (values df)) in
      (Ok t, mkAnalyzer (game self) (_df_results self) (jackpot_count self)
                        (Some t) (combo_counts self) (permutation_counts self))
  end.

Definition combo (self : Analyzer)
  : result (list (list A * nat)) * Analyzer :=
  match _df_results self with
  | None => (Raise AttributeError, self)
  | Some df =>
      let combo_list := apply_rows sorted df in
      let t := value_counts combo_list in
      (Ok t, mkAnalyzer (game self) (_df_results self) (jackpot_count self)
                        (face_counts self) (Some t) (permutation_counts self))
  end.

Definition permutation (self : Analyzer)
  : result (list (list A * nat)) * Analyzer :=
  match _df_results self with
  | None => (Raise AttributeError, self)
  | Some df =>
      let perm_list := apply_rows (fun x => x) df in
      let t := value_counts perm_list in
      (Ok t, mkAnalyzer (game self) (_df_results self) (jackpot_count self)
                        (face_counts self) (combo_counts self) (Some t))
  end.

End Montecarlo.

Arguments DataFrame A : clear implicits.
Arguments Die A : clear implicits.
Arguments Game A : clear implicits.
Arguments FaceCounts A : clear implicits.
Arguments Analyzer A : clear implicits.
Arguments faces_arg A : clear implicits.
Arguments game_arg A : clear implicits.

(** ** Sample inputs *)

Module Samples.

Local Open Scope Z_scope.

(** A generator whose samples cycle through 0.125, 0.5 and 0.875. *)
Definition tape : Np.RandomState :=
  fun i =>
    match (i mod 3)%nat with
    | O => exist _ 0.125%float eq_refl
    | S O => exist _ 0.5%float eq_refl
    | _ => exist _ 0.875%float eq_refl
    end.

(** [Die(np.array([1, 2, 3]))], as the tests build it. *)
Definition fair_die : Die Z := mkDie [(1, 1%float); (2, 1%float); (3, 1%float)].

(** Faces 1 and 2 after [change_weight(1, 0)] and [change_weight(2, 0)]. *)
Definition zero_die : Die Z := mkDie [(1, 0%float); (2, 0%float)].

(** Faces 1 and 2 after [change_weight(1, 2)] and [change_weight(2, -1)]. *)
Definition negative_die : Die Z := mkDie [(1, 2%float); (2, (-1)%float)].

(** A parser of float literals that knows "nan" and nothing else. *)
Definition parse_nan (s : string) : option float :=
  if String.eqb s "nan" then Some nan else None.

(** The table with rows (1,2), (2,1), (1,1) over two dice. *)
Definition table_3x2 : DataFrame Z :=
  mkDataFrame [Some "roll_number"%string]
              [[LInt 0]; [LInt 1]; [LInt 2]]
              [LInt 0; LInt 1]
              [[1; 2]; [2; 1]; [1; 1]].

(** The table with the single row (1,1,2) over three dice. *)
Definition table_1x3 : DataFrame Z :=
  mkDataFrame [Some "roll_number"%string]
              [[LInt 0]]
              [LInt 0; LInt 1; LInt 2]
              [[1; 1; 2]].

Definition analyzer_of (df : DataFrame Z) : Analyzer Z :=
  mkAnalyzer (mkGame [fair_die; fair_die] (Some df)) (Some df)
             None None None None.

(** Two fair dice, never played. *)
Definition fresh_game : Game Z := Game_init [fair_die; fair_die].

(** A game that was played while its dice were fair and whose second die
    has since had all its weights set to zero. *)
Definition stale_game : Game Z :=
  mkGame [fair_die; zero_die] (Some table_3x2).

(** A single die of positive weight sum with a negative weight. *)
Definition negative_game : Game Z := Game_init [negative_die].

(** A game over no dice at all. *)
Definition empty_game : Game Z := Game_init [].

End Samples.

(** ** Sequences of calls *)

Section Calls.

Context {A : Type} {FA : Face A}.
Variable parse_float : string -> option float.

(** A run of [change_weight] calls on one die, each given as its face and
    its weight argument; a call that raises is survived (the caller catches
    the exception) and the run goes on with the die as that call left it. *)
Definition change_weights (self : Die A) (calls : list (A * pyobj)) : Die A :=
  fold_left (fun d c => snd (change_weight parse_float d (fst c) (snd c)))
            calls self.

(** The last cell of the running sums of a die's probabilities: the total
    by which the sampler normalises them once more. *)
Definition die_total (self : Die A) : float :=
  last (Np.cumsum (die_probabilities self)) 0%float.

(** A die all of whose weight is on the face [f]: the faces are distinct,
    every face other than [f] has weight zero, and the sampler accepts the
    probabilities, which add up to a positive total. *)
Definition loaded_on (f : A) (self : Die A) : Prop :=
  NoDup (die_faces self) /\
  rollable self = true /\
  (0 <? die_total self)%float = true /\
  forall g, In g (die_faces self) -> g <> f ->
            exists w, weight_at g (Die_show self) = Some w
                      /\ (w =? 0)%float = true.

(** A row all of whose cells hold one value (and which has a cell). *)
Definition constant_row (row : list A) : Prop :=
  exists x, row <> [] /\ forall y, In y row -> y = x.

(** The statistics of an Analyzer, and a run of calls to them on one
    analyzer, each call going on with the analyzer as the previous one left
    it (an AttributeError is caught by the caller). *)
Inductive stat : Set :=
| CallJackpot
| CallFaceCounts
| CallCombo
| CallPermutation.

Definition call_stat (self : Analyzer A) (s : stat) : Analyzer A :=
  match s with
  | CallJackpot => snd (jackpot self)
  | CallFaceCounts => snd (face_counts_per_roll self)
  | CallCombo => snd (combo self)
  | CallPermutation => snd (permutation self)
  end.

Definition call_stats (self : Analyzer A) (calls : list stat) : Analyzer A :=
  fold_left call_stat calls self.

End Calls.

Module MoreSamples.

Local Open Scope Z_scope.

(** Faces 1 and 2 after [change_weight(1, 0)]: only 2 can come up. *)
Definition loaded_die : Die Z := mkDie [(1, 0%float); (2, 1%float)].

(** One face whose weight was set to -3. *)
Definition lone_die : Die Z := mkDie [(7, (-3)%float)].

(** Face 2 after [change_weight(2, float('inf'))]. *)
Definition infinite_die : Die Z :=
  mkDie [(1, 1%float); (2, infinity); (3, 1%float)].

(** The table with rows (1,1), (2,1), (3,3) over two dice. *)
Definition table_jackpots : DataFrame Z :=
  mkDataFrame [Some "roll_number"%string]
              [[LInt 0]; [LInt 1]; [LInt 2]]
              [LInt 0; LInt 1]
              [[1; 1]; [2; 1]; [3; 3]].

End MoreSamples.

(** * Properties *)

(** ** IEEE facts used below *)

Module FloatFacts.

Local Open Scope float_scope.

Lemma eqb_zero_inv (s : float) :
  (s =? 0) = true -> exists b, Prim2SF s = S754_zero b.
Proof.
  rewrite eqb_spec. change (Prim2SF 0) with (S754_zero false).
  destruct (Prim2SF s) as [b | b | | b m e]; cbn; try discriminate.
  - intros _. now exists b.
  - destruct b; discriminate.
  - destruct b; discriminate.
Qed.

Lemma div_zero_nonfinite (x s : float) (b : bool) :
  Prim2SF s = S754_zero b -> Np.nonfinite (x / s) = true.
Proof.
  intros Hs. unfold Np.nonfinite. rewrite div_spec, Hs.
  destruct (Prim2SF x); reflexivity.
Qed.

Lemma add_nonfinite (x y : float) :
  Np.nonfinite x = true -> Np.nonfinite (x + y) = true.
Proof.
  unfold Np.nonfinite. rewrite add_spec.
  destruct (Prim2SF x) as [b | b | | b m e]; try discriminate; intros _.
  - destruct (Prim2SF y) as [c | c | | c m e]; cbn; try reflexivity.
    destruct b, c; reflexivity.
  - reflexivity.
Qed.

Lemma is_nan_spec (x : float) :
  is_nan x = match Prim2SF x with S754_nan => true | _ => false end.
Proof.
  unfold is_nan. rewrite eqb_spec.
  destruct (Prim2SF x) as [b | b | | b m e]; cbn; try reflexivity.
  - destruct b; reflexivity.
  - unfold SFeqb, SFcompare. rewrite Z.compare_refl.
    assert (H : PosDef.Pos.compare_cont Eq m m = Eq) by apply Pos.compare_cont_refl.
    rewrite H. destruct b; reflexivity.
Qed.

(** An infinite sum of probabilities is further than [atol] from 1. *)
Lemma infinity_far_from_one (x : float) (b : bool) :
  Prim2SF x = S754_infinity b -> (Np.atol <? abs (x - 1)) = true.
Proof.
  intros Hx. rewrite ltb_spec, abs_spec, sub_spec, Hx.
  destruct b; vm_compute; reflexivity.
Qed.

(** A finite non-zero double divided by itself is exactly 1. *)
Lemma div_self_finite (s : bool) (m : positive) (e : Z) :
  SF64div (S754_finite s m e) (S754_finite s m e) = Prim2SF 1.
Proof.
  unfold SF64div, SFdiv, SFdiv_core_binary.
  rewrite !Z.sub_diag.
  change (fexp prec emax 0) with (-53)%Z.
  change (IntDef.Z.min (-53) 0) with (-53)%Z.
  change (0 - -53)%Z with 53%Z. cbv iota beta.
  change IntDef.Z.shiftl with Z.shiftl.
  change IntDef.Z.div_eucl with Z.div_eucl.
  rewrite Z.shiftl_mul_pow2 by lia.
  assert (H : Z.div_eucl (Z.pos m * 2 ^ 53) (Z.pos m) = (2 ^ 53, 0)%Z).
  { destruct (Z.div_eucl (Z.pos m * 2 ^ 53) (Z.pos m)) as [q r] eqn:E.
    assert (Hq : q = (Z.pos m * 2 ^ 53 / Z.pos m)%Z)
      by (unfold Z.div; now rewrite E).
    assert (Hr : r = (Z.pos m * 2 ^ 53 mod Z.pos m)%Z)
      by (unfold Z.modulo; now rewrite E).
    rewrite Z.mul_comm, Z.div_mul in Hq by lia.
    rewrite Z.mul_comm, Z.mod_mul in Hr by lia. now subst. }
  rewrite H. unfold new_location.
  destruct (IntDef.Z.even (Z.pos m)); rewrite xorb_nilpotent;
    vm_compute; reflexivity.
Qed.

(** [x / x] is 1, or NaN when [x] is zero, infinite or NaN. *)
Lemma div_self (x : float) :
  Prim2SF (x / x) = Prim2SF 1 \/ Prim2SF (x / x) = S754_nan.
Proof.
  rewrite div_spec.
  destruct (Prim2SF x) as [b | b | | b m e].
  - right; reflexivity.
  - right; reflexivity.
  - right; reflexivity.
  - left; apply div_self_finite.
Qed.

(** A sample below 1 is placed before a cell holding [x / x]. *)
Lemma less_div_self (u x : float) :
  (u <? 1) = true -> Np.less u (x / x) = true.
Proof.
  intros Hu. unfold Np.less.
  destruct (div_self x) as [H | H].
  - rewrite ltb_spec, H, <- ltb_spec, Hu. reflexivity.
  - rewrite !is_nan_spec, H.
    rewrite ltb_spec in Hu.
    destruct (Prim2SF u) as [b | b | | b m e]; try discriminate Hu.
    all: now rewrite orb_true_r.
Qed.

End FloatFacts.

(** ** Facts about the numpy layer *)

Module NpFacts.

Import FloatFacts.
Local Open Scope nat_scope.

(** The iteration bound of the binary search is immaterial once it covers
    the width of the interval: the loop always runs to completion. *)
Lemma binsearch_right_fuel (fuel1 : nat) :
  forall fuel2 arr key lo hi,
    hi - lo <= fuel1 -> hi - lo <= fuel2 ->
    Np.binsearch_right fuel1 arr key lo hi =
    Np.binsearch_right fuel2 arr key lo hi.
Proof.
  induction fuel1 as [| f IH]; intros [| f2] arr key lo hi H1 H2;
    cbn [Np.binsearch_right]; try reflexivity.
  - destruct (lo <? hi) eqn:E; [apply Nat.ltb_lt in E; lia | reflexivity].
  - destruct (lo <? hi) eqn:E; [apply Nat.ltb_lt in E; lia | reflexivity].
  - destruct (lo <? hi) eqn:E; [| reflexivity].
    apply Nat.ltb_lt in E.
    assert ((hi - lo) / 2 < hi - lo) by (apply Nat.div_lt; lia).
    destruct (Np.less key _); apply IH; lia.
Qed.

(** When the key sorts before the last cell, the search stays in bounds. *)
Lemma binsearch_right_lt (fuel : nat) :
  forall arr key lo hi,
    lo <= hi -> hi <= length arr -> lo < length arr ->
    Np.less key (nth (length arr - 1) arr nan) = true ->
    Np.binsearch_right fuel arr key lo hi < length arr.
Proof.
  induction fuel as [| f IH]; intros arr key lo hi Hlh Hh Hl Hlast;
    cbn [Np.binsearch_right].
  - exact Hl.
  - destruct (lo <? hi) eqn:E; [| exact Hl].
    apply Nat.ltb_lt in E.
    assert (Hhalf : (hi - lo) / 2 < hi - lo) by (apply Nat.div_lt; lia).
    destruct (Np.less key (nth (lo + (hi - lo) / 2) arr nan)) eqn:Hm.
    + apply IH; auto; lia.
    + apply IH; auto; try lia.
      destruct (Nat.eq_dec (lo + (hi - lo) / 2) (length arr - 1)) as [Heq | Hne].
      * rewrite Heq, Hlast in Hm. discriminate.
      * lia.
Qed.

Lemma searchsorted_right_lt (arr : list float) (key : float) :
  arr <> [] ->
  Np.less key (nth (length arr - 1) arr nan) = true ->
  Np.searchsorted_right arr key < length arr.
Proof.
  intros Hne Hlast. unfold Np.searchsorted_right.
  assert (0 < length arr) by (destruct arr; [congruence | simpl; lia]).
  apply binsearch_right_lt; auto; lia.
Qed.

Lemma cumsum_from_length (p : list float) :
  forall acc, length (Np.cumsum_from acc p) = length p.
Proof. induction p as [| x p IH]; intros acc; simpl; [| rewrite IH]; reflexivity. Qed.

Lemma cumsum_length (p : list float) : length (Np.cumsum p) = length p.
Proof. destruct p; simpl; [| rewrite cumsum_from_length]; reflexivity. Qed.

Lemma last_cons (cs : list float) :
  forall c c0, last (c :: cs) c0 = last cs c.
Proof.
  induction cs as [| x cs IH]; intros c c0; [reflexivity |].
  change (last (c :: x :: cs) c0) with (last (x :: cs) c0).
  now rewrite !IH.
Qed.

Lemma nth_last_map (f : float -> float) (d : float) (cs : list float) :
  forall c0, nth (length cs) (map f (c0 :: cs)) d = f (last cs c0).
Proof.
  induction cs as [| c cs IH]; intros c0; [reflexivity |].
  change (nth (length (c :: cs)) (map f (c0 :: c :: cs)) d)
    with (nth (length cs) (map f (c :: cs)) d).
  now rewrite IH, last_cons.
Qed.

(** Indexing with in-bounds indices returns one element per index. *)
Lemma take_in_bounds {A : Type} (a : list A) (idx : list nat) :
  Forall (fun i => i < length a) idx ->
  exists l, Np.take a idx = Ok l /\ length l = length idx /\
            Forall (fun x => In x a) l.
Proof.
  induction idx as [| i idx IH]; intros H.
  - exists []. simpl. auto.
  - inversion H as [| ? ? Hi Hrest]; subst.
    destruct (IH Hrest) as (l & Hl & Hlen & Hin).
    destruct (nth_error a i) as [x |] eqn:E.
    + exists (x :: l). simpl. rewrite E, Hl. repeat split.
      * simpl. now rewrite Hlen.
      * constructor; [eapply nth_error_In; eauto | exact Hin].
    + apply nth_error_None in E. lia.
Qed.

(** Every sample of the generator is below 1. *)
Lemma random_sample_lt_one (size : nat) (rs : Np.RandomState) :
  Forall (fun u => (u <? 1)%float = true) (fst (Np.random_sample size rs)).
Proof.
  unfold Np.random_sample. simpl. apply Forall_forall. intros u Hu.
  apply in_map_iff in Hu. destruct Hu as (i & <- & _).
  destruct (rs i) as [v Hv]. simpl.
  apply andb_prop in Hv. tauto.
Qed.

Lemma random_sample_length (size : nat) (rs : Np.RandomState) :
  length (fst (Np.random_sample size rs)) = size.
Proof. unfold Np.random_sample. simpl. now rewrite length_map, length_seq. Qed.

(** [choice] returns [size] members of a non-empty population whenever the
    probabilities pass its checks. *)
Lemma random_choice_ok {A : Type} (a : list A) (size : Z) (p : list float)
      (rs : Np.RandomState) :
  a <> [] -> length p = length a -> Np.p_accepted p = true -> (0 <= size)%Z ->
  exists l,
    Np.random_choice a size p rs =
      (Ok l, snd (Np.random_sample (Z.to_nat size) rs)) /\
    length l = Z.to_nat size /\
    Forall (fun x => In x a) l.
Proof.
  intros Ha Hlen Hacc Hsize. unfold Np.random_choice.
  assert (Hpos : 0 < length a) by (destruct a; [congruence | simpl; lia]).
  replace (length a =? 0) with false by (symmetry; apply Nat.eqb_neq; lia).
  rewrite Hlen, Nat.eqb_refl, Hacc. cbn [andb negb].
  destruct (Np.cumsum p) as [| c0 cs] eqn:Ec.
  { pose proof (cumsum_length p) as Hc. rewrite Ec in Hc. simpl in Hc. lia. }
  replace (size <? 0)%Z with false by (symmetry; apply Z.ltb_ge; lia).
  cbv zeta.
  pose proof (random_sample_lt_one (Z.to_nat size) rs) as Hu.
  pose proof (random_sample_length (Z.to_nat size) rs) as Hn.
  destruct (Np.random_sample (Z.to_nat size) rs) as [us rs'] eqn:Ers.
  cbn [fst snd] in Hu, Hn |- *.
  set (cdf := Np.divide (c0 :: cs) (last cs c0)).
  assert (Hcdf : length cdf = length a).
  { unfold cdf, Np.divide. rewrite length_map, <- Ec, cumsum_length. exact Hlen. }
  destruct (@take_in_bounds A a (map (Np.searchsorted_right cdf) us))
    as (l & Hl & Hll & Hin).
  { apply Forall_forall. intros i Hi. apply in_map_iff in Hi.
    destruct Hi as (u & <- & Hu').
    rewrite <- Hcdf. apply searchsorted_right_lt.
    - unfold cdf. simpl. discriminate.
    - unfold cdf, Np.divide.
      replace (length (map (fun x => (x / last cs c0)%float) (c0 :: cs)) - 1)
        with (length cs) by (simpl; rewrite length_map; lia).
      rewrite nth_last_map.
      apply less_div_self. rewrite Forall_forall in Hu. now apply Hu. }
  exists l. rewrite Hl. repeat split; auto.
  now rewrite Hll, length_map.
Qed.

(** Rejected probabilities: ValueError, and the generator is not advanced. *)
Lemma random_choice_rejected {A : Type} (a : list A) (size : Z)
      (p : list float) (rs : Np.RandomState) :
  Np.p_accepted p = false ->
  Np.random_choice a size p rs = (Raise ValueError, rs).
Proof.
  intros H. unfold Np.random_choice. rewrite H. simpl.
  destruct ((length a =? 0) && negb (size =? 0)%Z)%bool; [reflexivity |].
  destruct (negb (length p =? length a)); reflexivity.
Qed.

Lemma kahan_loop_nonfinite (darr : list float) :
  forall sum c, Np.nonfinite sum = true ->
                Np.nonfinite (Np.kahan_loop sum c darr) = true.
Proof.
  induction darr as [| x rest IH]; intros sum c H; simpl; [exact H |].
  apply IH. now apply add_nonfinite.
Qed.

(** Probabilities obtained by dividing by a zero sum never pass. *)
Lemma p_accepted_divide_zero (ws : list float) (s : float) (b : bool) :
  Prim2SF s = S754_zero b -> Np.p_accepted (Np.divide ws s) = false.
Proof.
  intros Hs. destruct ws as [| w ws].
  - vm_compute. reflexivity.
  - unfold Np.p_accepted.
    assert (Hk : Np.nonfinite (Np.kahan_sum (Np.divide (w :: ws) s)) = true).
    { simpl. apply kahan_loop_nonfinite. eapply div_zero_nonfinite; eauto. }
    unfold Np.nonfinite in Hk.
    destruct (Prim2SF (Np.kahan_sum (Np.divide (w :: ws) s)))
      as [c | c | | c m e] eqn:E; try discriminate Hk.
    + rewrite (infinity_far_from_one _ E). simpl. apply andb_false_r.
    + rewrite is_nan_spec, E. reflexivity.
Qed.

End NpFacts.

Lemma Ok_inj {T : Type} (x y : T) : Ok x = Ok y -> x = y.
Proof. intros H. now injection H. Qed.

(** ** Facts about dice *)

Section DieFacts.

Context {A : Type} {FA : Face A}.
Variable parse_float : string -> option float.

Lemma mem_In (x : A) (l : list A) : mem face_eqb x l = true <-> In x l.
Proof.
  unfold mem. rewrite existsb_exists. split.
  - intros (y & Hy & E). apply face_eqb_eq in E. now subst.
  - intros H. exists x. split; [exact H | now apply face_eqb_eq].
Qed.

Lemma face_eqb_refl (x : A) : face_eqb x x = true.
Proof. now apply face_eqb_eq. Qed.

Lemma face_eqb_neq (x y : A) : x <> y -> face_eqb x y = false.
Proof.
  intros H. destruct (face_eqb x y) eqn:E; [| reflexivity].
  apply face_eqb_eq in E. contradiction.
Qed.

(** *** roll *)

Lemma roll_unfold (d : Die A) (n : Z) (rs : Np.RandomState) :
  roll d n rs =
  (fst (Np.random_choice (die_faces d) n (die_probabilities d) rs),
   (d, snd (Np.random_choice (die_faces d) n (die_probabilities d) rs))).
Proof.
  unfold roll, die_probabilities.
  destruct (Np.random_choice _ _ _ _). reflexivity.
Qed.

Lemma roll_rejected (d : Die A) (n : Z) (rs : Np.RandomState) :
  rollable d = false -> roll d n rs = (Raise ValueError, (d, rs)).
Proof.
  intros H. rewrite roll_unfold, NpFacts.random_choice_rejected; auto.
Qed.

Lemma rollable_faces (d : Die A) : rollable d = true -> die_faces d <> [].
Proof.
  unfold rollable, die_probabilities, die_faces, die_weights.
  destruct (_df d); [vm_compute; discriminate | discriminate].
Qed.

Lemma roll_ok (d : Die A) (n : Z) (rs : Np.RandomState) :
  rollable d = true -> (0 <= n)%Z ->
  exists l,
    roll d n rs = (Ok l, (d, snd (Np.random_sample (Z.to_nat n) rs))) /\
    length l = Z.to_nat n /\
    Forall (fun x => In x (die_faces d)) l.
Proof.
  intros Hr Hn.
  destruct (@NpFacts.random_choice_ok A (die_faces d) n (die_probabilities d) rs)
    as (l & Hl & Hlen & Hin); auto.
  - now apply rollable_faces.
  - unfold die_probabilities, Np.divide, die_weights, die_faces.
    now rewrite !length_map.
  - exists l. rewrite roll_unfold, Hl. auto.
Qed.

Lemma roll_zero_sum (d : Die A) (n : Z) (rs : Np.RandomState) :
  (Np.sum (die_weights d) =? 0)%float = true ->
  roll d n rs = (Raise ValueError, (d, rs)).
Proof.
  intros H. apply roll_rejected.
  destruct (FloatFacts.eqb_zero_inv H) as (b & Hb).
  unfold rollable, die_probabilities.
  eapply NpFacts.p_accepted_divide_zero; eauto.
Qed.

(** *** change_weight *)

Lemma weight_at_set_at_same (f : A) (w : float) (df : list (A * float)) :
  In f (map fst df) -> weight_at f (set_at f w df) = Some w.
Proof.
  induction df as [| [g x] df IH]; simpl; [tauto |].
  intros [-> | H].
  - now rewrite face_eqb_refl; simpl; rewrite face_eqb_refl.
  - destruct (face_eqb g f) eqn:E; simpl; rewrite E; auto.
Qed.

Lemma weight_at_set_at_other (f g : A) (w : float) (df : list (A * float)) :
  g <> f -> weight_at g (set_at f w df) = weight_at g df.
Proof.
  intros Hne. induction df as [| [h x] df IH]; simpl; [reflexivity |].
  destruct (face_eqb h f) eqn:E; simpl.
  - apply face_eqb_eq in E. subst h.
    rewrite (face_eqb_neq (x:=f) (y:=g)) by congruence. exact IH.
  - now rewrite IH.
Qed.

Lemma set_at_faces (f : A) (w : float) (df : list (A * float)) :
  map fst (set_at f w df) = map fst df.
Proof.
  unfold set_at. rewrite map_map. apply map_ext.
  intros [g x]. simpl. destruct (face_eqb g f); reflexivity.
Qed.

Lemma change_weight_ok (d : Die A) (f : A) (w : pyobj) (x : float) :
  In f (die_faces d) -> py_float parse_float w = Ok x ->
  change_weight parse_float d f w = (Ok tt, mkDie (set_at f x (_df d))).
Proof.
  intros Hf Hw. unfold change_weight.
  apply mem_In in Hf. rewrite Hf, Hw. reflexivity.
Qed.

Lemma change_weight_unknown_face (d : Die A) (f : A) (w : pyobj) :
  ~ In f (die_faces d) ->
  change_weight parse_float d f w = (Raise IndexError, d).
Proof.
  intros Hf. unfold change_weight.
  destruct (mem face_eqb f (die_faces d)) eqn:E; [| reflexivity].
  apply mem_In in E. contradiction.
Qed.

Lemma change_weight_not_numeric (d : Die A) (f : A) (w : pyobj) (e : exn) :
  In f (die_faces d) -> py_float parse_float w = Raise e ->
  e = ValueError \/ e = TypeError ->
  change_weight parse_float d f w = (Raise TypeError, d).
Proof.
  intros Hf Hw He. unfold change_weight.
  apply mem_In in Hf. rewrite Hf, Hw.
  destruct He; subst; reflexivity.
Qed.

End DieFacts.

(** ** Facts about tables and games *)

Section GameFacts.

Context {A : Type} {FA : Face A}.

(** *** Assembling the table *)

Lemma heads_length (m : nat) (cols : list (list A)) :
  Forall (fun c => length c = S m) cols -> length (heads cols) = length cols.
Proof.
  induction 1 as [| c cols Hc _ IH]; [reflexivity |].
  destruct c as [| x c]; [discriminate |].
  unfold heads in *. simpl. now rewrite IH.
Qed.

Lemma tails_length (m : nat) (cols : list (list A)) :
  Forall (fun c => length c = S m) cols ->
  Forall (fun c => length c = m) (tails cols).
Proof.
  induction 1 as [| c cols Hc _ IH]; simpl; constructor; auto.
  destruct c; simpl in *; congruence.
Qed.

Lemma rows_of_shape (n : nat) :
  forall cols : list (list A),
    Forall (fun c => length c = n) cols ->
    length (rows_of n cols) = n /\
    Forall (fun r => length r = length cols) (rows_of n cols).
Proof.
  induction n as [| m IH]; intros cols H; simpl.
  - split; [reflexivity | constructor].
  - destruct (IH (tails cols) (tails_length H)) as (Hl & Hr).
    split; [now rewrite Hl |].
    constructor; [now apply heads_length with m |].
    unfold tails in Hr. now rewrite length_map in Hr.
Qed.

Lemma pd_DataFrame_uniform (n : nat) (c : list A) (cols : list (list A)) :
  Forall (fun c' => length c' = n) (c :: cols) ->
  pd_DataFrame (c :: cols) =
  Ok (mkDataFrame [None]
                  (map (fun i => [LInt i]) (seq 0 n))
                  (map LInt (seq 0 (length (c :: cols))))
                  (rows_of n (c :: cols))).
Proof.
  intros H. unfold pd_DataFrame.
  assert (Hc : length c = n) by now inversion H.
  rewrite Hc.
  replace (forallb (fun c' => length c' =? n) (c :: cols)) with true;
    [reflexivity |].
  symmetry. apply forallb_forall. rewrite Forall_forall in H.
  intros x Hx. apply Nat.eqb_eq. now apply H.
Qed.

(** *** Stacking *)

Lemma map_fst_combine {X Y : Type} (l : list X) :
  forall l' : list Y, length l' = length l -> map fst (combine l l') = l.
Proof.
  induction l as [| x l IH]; intros [| y l'] H; simpl in *;
    try discriminate; try reflexivity.
  f_equal. apply IH. lia.
Qed.

Lemma stack_index_gen (cols : list label) (idx : list (list label)) :
  forall vs : list (list A),
    length vs = length idx ->
    Forall (fun r => length r = length cols) vs ->
    map fst (stack (mkDataFrame [None] idx cols vs)) =
    flat_map (fun i => map (fun c => i ++ [c]) cols) idx.
Proof.
  unfold stack. simpl.
  induction idx as [| i idx IH]; intros [| r vs] Hlen Hrows; simpl in *;
    try discriminate; try reflexivity.
  inversion Hrows as [| ? ? Hr Hrest]; subst.
  rewrite map_app, IH by (auto; lia). f_equal.
  rewrite map_map. simpl.
  rewrite <- (map_fst_combine cols r Hr) at 2.
  now rewrite map_map.
Qed.

Lemma stack_values_gen (cols : list label) (idx : list (list label)) :
  forall vs : list (list A),
    length vs = length idx ->
    Forall (fun r => length r = length cols) vs ->
    map snd (stack (mkDataFrame [None] idx cols vs)) = concat vs.
Proof.
  unfold stack. simpl.
  induction idx as [| i idx IH]; intros [| r vs] Hlen Hrows; simpl in *;
    try discriminate; try reflexivity.
  inversion Hrows as [| ? ? Hr Hrest]; subst.
  rewrite map_app, IH by (auto; lia). f_equal.
  rewrite map_map. simpl.
  clear - Hr. revert r Hr.
  induction cols as [| c cols IHc]; intros [| x r] Hr; simpl in *;
    try discriminate; try reflexivity.
  f_equal. apply IHc. lia.
Qed.

(** *** The loop of play *)

Lemma roll_each_dice (ds : list (Die A)) :
  forall n acc rs, fst (snd (roll_each ds n acc rs)) = ds.
Proof.
  induction ds as [| d ds IH]; intros n acc rs; simpl; [reflexivity |].
  rewrite roll_unfold.
  destruct (fst (Np.random_choice _ _ _ _)) as [r | e]; [| reflexivity].
  specialize (IH n (acc ++ [r])
                 (snd (Np.random_choice (die_faces d) n (die_probabilities d) rs))).
  destruct (roll_each ds n (acc ++ [r]) _) as [res [rest' rs'']].
  simpl in *. now rewrite IH.
Qed.

Lemma roll_each_ok (ds : list (Die A)) (n : Z) :
  (0 <= n)%Z ->
  Forall (fun d => rollable d = true) ds ->
  forall acc rs,
  exists cols rs',
    roll_each ds n acc rs = (Ok (acc ++ cols), (ds, rs')) /\
    length cols = length ds /\
    Forall (fun c => length c = Z.to_nat n) cols /\
    Forall2 (fun d c => Forall (fun x => In x (die_faces d)) c) ds cols.
Proof.
  intros Hn. induction 1 as [| d ds Hd _ IH]; intros acc rs; simpl.
  - exists [], rs. rewrite app_nil_r. repeat split; constructor.
  - destruct (roll_ok d rs Hd Hn) as (l & Hl & Hlen & Hin). rewrite Hl.
    destruct (IH (acc ++ [l]) (snd (Np.random_sample (Z.to_nat n) rs)))
      as (cols & rs' & Hre & Hc & Hlens & Hfaces).
    rewrite Hre. exists (l :: cols), rs'.
    rewrite <- app_assoc. repeat split; simpl; auto.
Qed.

(** *** play *)

Lemma play_raise_keeps (g : Game A) (n : Z) (rs : Np.RandomState) (e : exn) :
  fst (play g n rs) = Raise e -> fst (snd (play g n rs)) = g.
Proof.
  unfold play. pose proof (roll_each_dice (dice g) n [] rs) as Hd.
  destruct (roll_each (dice g) n [] rs) as [[cols | e'] [ds rs']];
    simpl in Hd; subst ds.
  - destruct (pd_DataFrame cols); simpl; [discriminate |].
    intros _. now destruct g.
  - intros _. now destruct g.
Qed.

Lemma play_ok (g : Game A) (n : Z) (rs : Np.RandomState) :
  (0 <= n)%Z ->
  Forall (fun d => rollable d = true) (dice g) ->
  exists cols df rs',
    play g n rs =
      (Ok tt, (mkGame (dice g) (Some (set_index_name df "roll_number")), rs')) /\
    pd_DataFrame cols = Ok df /\
    length cols = length (dice g) /\
    Forall (fun c => length c = Z.to_nat n) cols /\
    Forall2 (fun d c => Forall (fun x => In x (die_faces d)) c) (dice g) cols.
Proof.
  intros Hn Hd. unfold play.
  destruct (roll_each_ok Hn Hd [] rs) as (cols & rs' & Hre & Hc & Hl & Hf).
  rewrite Hre. simpl.
  destruct cols as [| c cols].
  - exists [], (mkDataFrame [None] [] [] []), rs'. simpl. auto.
  - rewrite (pd_DataFrame_uniform Hl).
    eexists (c :: cols), _, rs'. repeat split; auto.
    now apply pd_DataFrame_uniform.
Qed.

(** A die the sampler rejects makes the loop, and so [play], raise. *)
Lemma roll_each_raises (ds : list (Die A)) (n : Z) :
  Exists (fun d => rollable d = false) ds ->
  forall acc rs, exists e, fst (roll_each ds n acc rs) = Raise e.
Proof.
  induction 1 as [d ds Hd | d ds _ IH]; intros acc rs; simpl.
  - rewrite (roll_rejected d n rs Hd). now exists ValueError.
  - rewrite roll_unfold.
    destruct (fst (Np.random_choice _ _ _ _)) as [r | e]; [| now exists e].
    destruct (IH (acc ++ [r])
                 (snd (Np.random_choice (die_faces d) n (die_probabilities d) rs)))
      as (e & He).
    destruct (roll_each ds n (acc ++ [r]) _) as [res [rest' rs'']].
    exists e. exact He.
Qed.

Lemma play_raises (g : Game A) (n : Z) (rs : Np.RandomState) :
  Exists (fun d => rollable d = false) (dice g) ->
  exists e, fst (play g n rs) = Raise e.
Proof.
  intros H. destruct (roll_each_raises n H [] rs) as (e & He).
  unfold play. destruct (roll_each (dice g) n [] rs) as [[cols | e'] [ds rs']];
    simpl in He; [discriminate |].
  now exists e'.
Qed.

(** The stored table does not enter the outcome of a successful play. *)
Lemma play_replaces (g : Game A) (n : Z) (rs : Np.RandomState) :
  fst (play g n rs) = Ok tt ->
  play g n rs = play (Game_init (dice g)) n rs.
Proof.
  unfold play, Game_init. simpl.
  destruct (roll_each (dice g) n [] rs) as [[cols | e'] [ds rs']];
    [| discriminate].
  destruct (pd_DataFrame cols); [reflexivity | discriminate].
Qed.

End GameFacts.

(** ** Facts about [unique] and [count] *)

Section UniqueFacts.

Variable K : Type.
Variable eqb : K -> K -> bool.
Hypothesis eqb_eq : forall x y, eqb x y = true <-> x = y.

Lemma eqb_refl' (x : K) : eqb x x = true.
Proof. now apply eqb_eq. Qed.

Lemma unique_In (l : list K) (x : K) : In x (unique eqb l) <-> In x l.
Proof.
  induction l as [| a l IH]; simpl; [tauto |].
  rewrite filter_In, IH. split.
  - intros [H | [H _]]; auto.
  - intros [H | H]; auto.
    destruct (eqb x a) eqn:E.
    + apply eqb_eq in E. auto.
    + right. split; [assumption | reflexivity].
Qed.

Lemma unique_NoDup (l : list K) : NoDup (unique eqb l).
Proof.
  induction l as [| a l IH]; simpl; constructor.
  - rewrite filter_In. intros [_ H]. now rewrite eqb_refl' in H.
  - now apply NoDup_filter.
Qed.

(** [unique] read from the left: a value joins the end of the result the
    first time it is met and never again. *)
Lemma unique_snoc (l : list K) (x : K) :
  unique eqb (l ++ [x]) =
  if mem eqb x l then unique eqb l else unique eqb l ++ [x].
Proof.
  induction l as [| a l IH]; [reflexivity |].
  change (unique eqb ((a :: l) ++ [x]))
    with (a :: filter (fun y => negb (eqb y a)) (unique eqb (l ++ [x]))).
  change (mem eqb x (a :: l)) with (eqb x a || mem eqb x l).
  rewrite IH.
  destruct (mem eqb x l); [now rewrite orb_true_r |].
  rewrite orb_false_r, filter_app. simpl.
  destruct (eqb x a); simpl; [now rewrite app_nil_r | reflexivity].
Qed.

Lemma mem_In_gen (l : list K) (x : K) : mem eqb x l = true <-> In x l.
Proof.
  unfold mem. rewrite existsb_exists. split.
  - intros (y & Hy & E). apply eqb_eq in E. now subst.
  - intros H. exists x. split; [exact H | apply eqb_refl'].
Qed.

Lemma count_zero (l : list K) (x : K) : count eqb x l = 0 <-> ~ In x l.
Proof.
  unfold count. induction l as [| a l IH]; simpl; [tauto |].
  destruct (eqb a x) eqn:E; simpl.
  - apply eqb_eq in E. split; [discriminate | intros H; exfalso; auto].
  - rewrite IH. split; [| tauto].
    intros H [Ha | Hl]; [| tauto].
    subst. now rewrite eqb_refl' in E.
Qed.

Lemma count_pos (l : list K) (x : K) : 0 < count eqb x l <-> In x l.
Proof.
  pose proof (count_zero l x) as H. pose proof (mem_In_gen l x) as Hm.
  destruct (mem eqb x l).
  - assert (Hin : In x l) by now apply Hm.
    split; [auto |]. intros _.
    destruct (Nat.eq_dec (count eqb x l) 0) as [E | E]; [| lia].
    apply H in E. contradiction.
  - assert (Hnin : ~ In x l) by (intros Hin; apply Hm in Hin; discriminate).
    split; [| contradiction]. apply H in Hnin. lia.
Qed.

End UniqueFacts.

(** ** Facts about sorting and tallying *)

Section AnalyzerFacts.

Context {A : Type} {FA : Face A}.

(** *** sorted *)

Lemma insert_sorted_perm (x : A) (l : list A) :
  Permutation (insert_sorted x l) (x :: l).
Proof.
  induction l as [| y l IH]; simpl; [apply Permutation_refl |].
  destruct (face_leb x y); [apply Permutation_refl |].
  eapply perm_trans; [apply perm_skip, IH | apply perm_swap].
Qed.

Lemma sorted_perm (l : list A) : Permutation (sorted l) l.
Proof.
  induction l as [| x l IH]; simpl; [constructor |].
  eapply perm_trans; [apply insert_sorted_perm | now apply perm_skip].
Qed.

Lemma insert_sorted_ascending (x : A) (l : list A) :
  StronglySorted face_le l -> StronglySorted face_le (insert_sorted x l).
Proof.
  induction 1 as [| y l Hs IH Hy]; simpl.
  - repeat constructor.
  - destruct (face_leb x y) eqn:E.
    + constructor; [now constructor |].
      constructor; [exact E |].
      rewrite Forall_forall in Hy |- *. intros z Hz.
      eapply face_leb_trans; [exact E | now apply Hy].
    + constructor; [exact IH |].
      assert (Hyx : face_le y x).
      { destruct (face_leb_total x y) as [H | H]; [congruence | exact H]. }
      rewrite Forall_forall in Hy |- *. intros z Hz.
      apply (Permutation_in _ (insert_sorted_perm x l)) in Hz.
      destruct Hz as [<- | Hz]; [exact Hyx | now apply Hy].
Qed.

Lemma sorted_ascending (l : list A) : StronglySorted face_le (sorted l).
Proof.
  induction l as [| x l IH]; simpl; [constructor |].
  now apply insert_sorted_ascending.
Qed.

(** Two ascending arrangements of the same cells coincide. *)
Lemma ascending_unique (l1 : list A) :
  forall l2,
    StronglySorted face_le l1 -> StronglySorted face_le l2 ->
    Permutation l1 l2 -> l1 = l2.
Proof.
  induction l1 as [| x l1 IH]; intros l2 H1 H2 Hp.
  - apply Permutation_nil in Hp. now subst.
  - destruct l2 as [| y l2].
    { apply Permutation_sym, Permutation_nil in Hp. discriminate. }
    inversion H1 as [| ? ? Hs1 Hx]; subst.
    inversion H2 as [| ? ? Hs2 Hy]; subst.
    assert (Exy : x = y).
    { assert (Hin1 : In x (y :: l2))
        by (eapply Permutation_in; [exact Hp | now left]).
      assert (Hin2 : In y (x :: l1))
        by (eapply Permutation_in; [apply Permutation_sym, Hp | now left]).
      rewrite Forall_forall in Hx, Hy.
      destruct Hin1 as [E | Hin1]; [now subst |].
      destruct Hin2 as [E | Hin2]; [now subst |].
      apply face_leb_antisym; [now apply Hx | now apply Hy]. }
    subst y. f_equal. apply IH; auto.
    now apply Permutation_cons_inv in Hp.
Qed.

(** Rows get the same sorted key exactly when they hold the same cells
    up to order. *)
Lemma sorted_eq_iff (r1 r2 : list A) :
  sorted r1 = sorted r2 <-> Permutation r1 r2.
Proof.
  split; intros H.
  - eapply perm_trans; [apply Permutation_sym, sorted_perm |].
    rewrite H. apply sorted_perm.
  - apply ascending_unique; try apply sorted_ascending.
    eapply perm_trans; [apply sorted_perm |].
    eapply perm_trans; [exact H | apply Permutation_sym, sorted_perm].
Qed.

(** *** value_counts *)

Lemma tuple_eqb_eq (k1 : list A) :
  forall k2, tuple_eqb k1 k2 = true <-> k1 = k2.
Proof.
  unfold tuple_eqb.
  induction k1 as [| x k1 IH]; intros [| y k2]; simpl;
    try (split; [discriminate | discriminate]); [tauto |].
  rewrite andb_true_iff, IH, face_eqb_eq.
  split; [intros [-> ->]; reflexivity | intros E; inversion E; auto].
Qed.

Lemma tally_keys (s : list (list A)) :
  map fst (tally s) = unique tuple_eqb s.
Proof.
  unfold tally. rewrite map_map. simpl. apply map_id.
Qed.

Lemma tally_In (s : list (list A)) (k : list A) (c : nat) :
  In (k, c) (tally s) <-> In k s /\ c = count tuple_eqb k s.
Proof.
  unfold tally. rewrite in_map_iff. split.
  - intros (k' & E & Hin). inversion E; subst.
    split; [| reflexivity].
    exact (proj1 (@unique_In _ _ tuple_eqb_eq s k) Hin).
  - intros (Hin & ->). exists k. split; [reflexivity |].
    exact (proj2 (@unique_In _ _ tuple_eqb_eq s k) Hin).
Qed.

Lemma insert_count_perm (kc : list A * nat) (l : list (list A * nat)) :
  Permutation (insert_count kc l) (kc :: l).
Proof.
  induction l as [| kc' l IH]; simpl; [apply Permutation_refl |].
  destruct (snd kc' <=? snd kc)%nat; [apply Permutation_refl |].
  eapply perm_trans; [apply perm_skip, IH | apply perm_swap].
Qed.

Lemma sort_counts_perm (l : list (list A * nat)) :
  Permutation (sort_counts l) l.
Proof.
  induction l as [| kc l IH]; simpl; [constructor |].
  eapply perm_trans; [apply insert_count_perm | now apply perm_skip].
Qed.

(** Larger counts come first. *)
Lemma insert_count_descending (kc : list A * nat) (l : list (list A * nat)) :
  StronglySorted count_ge l -> StronglySorted count_ge (insert_count kc l).
Proof.
  induction 1 as [| kc' l Hs IH Hk]; simpl.
  - repeat constructor.
  - destruct (snd kc' <=? snd kc)%nat eqn:E.
    + apply Nat.leb_le in E.
      constructor; [now constructor |].
      constructor; [exact E |].
      rewrite Forall_forall in Hk |- *. intros z Hz.
      specialize (Hk z Hz). unfold count_ge in *. lia.
    + apply Nat.leb_gt in E.
      constructor; [exact IH |].
      rewrite Forall_forall in Hk |- *. intros z Hz.
      apply (Permutation_in _ (insert_count_perm kc l)) in Hz.
      destruct Hz as [<- | Hz]; [unfold count_ge; lia | now apply Hk].
Qed.

Lemma sort_counts_descending (l : list (list A * nat)) :
  StronglySorted count_ge (sort_counts l).
Proof.
  induction l as [| kc l IH]; simpl; [constructor |].
  now apply insert_count_descending.
Qed.

(** What [value_counts] holds: exactly the keys that occur, each once, each
    with its number of occurrences. *)
Lemma value_counts_In (s : list (list A)) (k : list A) (c : nat) :
  In (k, c) (value_counts s) <-> c = count tuple_eqb k s /\ 0 < c.
Proof.
  unfold value_counts. split.
  - intros H. apply (Permutation_in _ (sort_counts_perm (tally s))) in H.
    apply tally_In in H. destruct H as (Hin & ->).
    split; [reflexivity |]. exact (proj2 (@count_pos _ _ tuple_eqb_eq s k) Hin).
  - intros (-> & Hpos).
    apply (Permutation_in _ (Permutation_sym (sort_counts_perm (tally s)))).
    apply tally_In. split; [| reflexivity].
    exact (proj1 (@count_pos _ _ tuple_eqb_eq s k) Hpos).
Qed.

Lemma value_counts_NoDup (s : list (list A)) :
  NoDup (map fst (value_counts s)).
Proof.
  unfold value_counts.
  eapply Permutation_NoDup.
  - apply Permutation_map, Permutation_sym, sort_counts_perm.
  - rewrite tally_keys. apply (@unique_NoDup _ _ tuple_eqb_eq).
Qed.

Lemma lookup_count_In (t : list (list A * nat)) (k : list A) (c : nat) :
  NoDup (map fst t) -> (lookup_count k t = Some c <-> In (k, c) t).
Proof.
  induction t as [| [k' c'] t IH]; simpl; intros Hnd.
  - split; [discriminate | tauto].
  - inversion Hnd as [| ? ? Hnin Hnd']; subst.
    destruct (tuple_eqb k' k) eqn:E.
    + apply tuple_eqb_eq in E. subst k'. split.
      * intros H. inversion H. now left.
      * intros [H | H]; [now inversion H |].
        exfalso. apply Hnin. apply in_map_iff. now exists (k, c).
    + rewrite IH by assumption. split; [tauto |].
      intros [H | H]; [| exact H].
      inversion H; subst. pose proof (proj2 (tuple_eqb_eq k k) eq_refl).
      congruence.
Qed.

End AnalyzerFacts.

(** ** Facts about the views of a table *)

Section ShowShapes.

Context {A : Type}.

Lemma flat_map_map_index (k : nat) (l : list nat) :
  flat_map (fun i => map (fun c => i ++ [c]) (map LInt (seq 0 k)))
           (map (fun i => [LInt i]) l) =
  flat_map (fun i => map (fun j => [LInt i; LInt j]) (seq 0 k)) l.
Proof.
  induction l as [| i l IH]; simpl; [reflexivity |].
  rewrite IH. f_equal. now rewrite map_map.
Qed.

Lemma flat_map_nil {X Y : Type} (l : list X) :
  flat_map (fun _ : X => @nil Y) l = [].
Proof. induction l; simpl; auto. Qed.

(** The two views of a table assembled from [k] columns of [n] cells. *)
Lemma show_shapes (ds : list (Die A)) (cols : list (list A))
      (df : DataFrame A) (n : nat) :
  pd_DataFrame cols = Ok df ->
  Forall (fun c => length c = n) cols ->
  exists wide narrow,
    show (mkGame ds (Some (set_index_name df "roll_number"))) "wide"
      = Ok (Some wide) /\
    shape wide = ((if (length cols =? 0)%nat then 0 else n), length cols) /\
    length (values wide) = (if (length cols =? 0)%nat then 0 else n) /\
    Forall (fun r => length r = length cols) (values wide) /\
    index_names wide = [Some "roll_number"%string] /\
    show (mkGame ds (Some (set_index_name df "roll_number"))) "narrow"
      = Ok (Some narrow) /\
    index_names narrow = [Some "roll_number"%string; Some "die_number"%string] /\
    index narrow =
      flat_map (fun i => map (fun j => [LInt i; LInt j]) (seq 0 (length cols)))
               (seq 0 n) /\
    length (index narrow) = n * length cols /\
    columns narrow = [LStr "outcome"] /\
    values narrow = map (fun x => [x]) (concat (values wide)).
Proof.
  intros Hdf Hcols.
  assert (Hst : map fst (stack df) =
                flat_map (fun i => map (fun j => [LInt i; LInt j])
                                       (seq 0 (length cols)))
                         (seq 0 n) /\
                map snd (stack df) = concat (values df) /\
                length (index df) = (if (length cols =? 0)%nat then 0 else n) /\
                length (columns df) = length cols /\
                length (values df) = (if (length cols =? 0)%nat then 0 else n) /\
                Forall (fun r => length r = length cols) (values df)).
  { destruct cols as [| c cols].
    - inversion Hdf; subst df. cbn. rewrite flat_map_nil. repeat split; constructor.
    - pose proof (pd_DataFrame_uniform Hcols) as Hu.
      rewrite Hdf in Hu. apply Ok_inj in Hu. subst df.
      destruct (rows_of_shape Hcols) as (Hrl & Hrs).
      replace (length (c :: cols) =? 0)%nat with false by reflexivity.
      set (k := length (c :: cols)) in *.
      assert (Hk : length (map LInt (seq 0 k)) = k)
        by now rewrite length_map, length_seq.
      cbn [index columns values].
      split; [| split; [| repeat split]]; auto.
      + rewrite stack_index_gen.
        * apply flat_map_map_index.
        * now rewrite Hrl, length_map, length_seq.
        * now rewrite Hk.
      + apply stack_values_gen.
        * now rewrite Hrl, length_map, length_seq.
        * now rewrite Hk.
      + now rewrite length_map, length_seq. }
  destruct Hst as (Hidx & Hval & Hil & Hcl & Hvl & Hrows).
  exists (set_index_name df "roll_number"),
         (mkDataFrame [Some "roll_number"%string; Some "die_number"%string]
                      (map fst (stack df)) [LStr "outcome"]
                      (map (fun e => [snd e]) (stack df))).
  unfold shape. cbn [set_index_name index_names index columns values].
  repeat split; auto; try congruence.
  - rewrite Hidx, (flat_map_constant_length (c := length cols)).
    + now rewrite length_seq.
    + intros i _. now rewrite length_map, length_seq.
  - now rewrite <- Hval, map_map.
Qed.

End ShowShapes.

(** ** Facts about the counts of a row *)

Section RowCounts.

Context {A : Type} {FA : Face A}.

Lemma list_sum_map_zero {X : Type} (l : list X) :
  list_sum (map (fun _ => 0) l) = 0.
Proof. induction l; simpl; auto. Qed.

Lemma list_sum_map_add {X : Type} (f g : X -> nat) (l : list X) :
  list_sum (map (fun v => f v + g v) l) =
  list_sum (map f l) + list_sum (map g l).
Proof. induction l as [| v l IH]; simpl; [reflexivity | rewrite IH; lia]. Qed.

Lemma list_sum_indicator (x : A) (U : list A) :
  NoDup U -> In x U ->
  list_sum (map (fun v => if face_eqb x v then 1 else 0) U) = 1.
Proof.
  induction 1 as [| u U Hnin Hnd IH]; simpl; [tauto |].
  intros [-> | Hin].
  - rewrite face_eqb_refl.
    rewrite (map_ext_in _ (fun _ => 0)), list_sum_map_zero; [reflexivity |].
    intros v Hv. rewrite face_eqb_neq; [reflexivity | congruence].
  - rewrite face_eqb_neq by congruence. now rewrite IH.
Qed.

(** Over a duplicate-free set of columns that covers the row, the counts
    of a row add up to its number of cells: every cell is counted once. *)
Lemma row_counts_sum (U row : list A) :
  NoDup U -> (forall x, In x row -> In x U) ->
  list_sum (map (fun v => count face_eqb v row) U) = length row.
Proof.
  intros Hnd. induction row as [| x row IH]; intros Hcov.
  - apply list_sum_map_zero.
  - assert (Hext : map (fun v => count face_eqb v (x :: row)) U =
                   map (fun v => (if face_eqb x v then 1 else 0)
                                 + count face_eqb v row) U).
    { apply map_ext. intros v. unfold count. simpl.
      now destruct (face_eqb x v). }
    rewrite Hext, list_sum_map_add.
    rewrite list_sum_indicator by (auto; apply Hcov; now left).
    rewrite IH by (intros y Hy; apply Hcov; now right).
    reflexivity.
Qed.

Lemma observed_faces (rows : list (list A)) (v : A) :
  In v (unique face_eqb (concat rows)) <->
  exists row, In row rows /\ In v row.
Proof.
  rewrite (@unique_In _ _ face_eqb_eq), in_concat. firstorder.
Qed.

End RowCounts.

(** * The claims *)

Import Samples.

(** ** Die *)

(** C1.  A die whose weights sum to zero cannot be rolled.  Whatever the
    number of rolls and the state of the generator, [roll] raises: the zero
    sum turns every probability into NaN or an infinity, the sampler refuses
    them, no outcome is returned, no sample is drawn (the generator is left
    where it was) and the die is unchanged.  The exception is ValueError as
    soon as the die has a face or a roll is asked for.  The rejection does
    not depend on how the zero was computed: probabilities obtained by
    dividing by any zero are refused. *)
Theorem roll_zero_weight_sum_raises :
  forall (A : Type) (d : Die A) (n : Z) (rs : Np.RandomState),
    (Np.sum (die_weights d) =? 0)%float = true ->
    (exists e : exn,
        roll d n rs = (Raise e, (d, rs)) /\
        (die_faces d <> [] \/ n <> 0%Z -> e = ValueError)) /\
    Forall (fun p => Np.nonfinite p = true) (die_probabilities d) /\
    rollable d = false /\
    (forall s : float,
        (s =? 0)%float = true ->
        Np.p_accepted (Np.divide (die_weights d) s) = false).
Proof.
  intros A d n rs H.
  destruct (FloatFacts.eqb_zero_inv H) as (b & Hb).
  split; [| split; [| split]].
  - exists ValueError. split; [now apply roll_zero_sum | reflexivity].
  - unfold die_probabilities, Np.divide. apply Forall_forall.
    intros p Hp. apply in_map_iff in Hp. destruct Hp as (w & <- & _).
    eapply FloatFacts.div_zero_nonfinite; eauto.
  - unfold rollable, die_probabilities.
    eapply NpFacts.p_accepted_divide_zero; eauto.
  - intros s Hs. destruct (FloatFacts.eqb_zero_inv Hs) as (c & Hc).
    eapply NpFacts.p_accepted_divide_zero; eauto.
Qed.

Lemma roll_zero_weight_sum_raises_witness :
  (exists e : exn,
      roll zero_die 5 tape = (Raise e, (zero_die, tape)) /\
      (die_faces zero_die <> [] \/ 5%Z <> 0%Z -> e = ValueError)) /\
  Forall (fun p => Np.nonfinite p = true) (die_probabilities zero_die) /\
  rollable zero_die = false /\
  (forall s : float,
      (s =? 0)%float = true ->
      Np.p_accepted (Np.divide (die_weights zero_die) s) = false).
Proof.
  apply (@roll_zero_weight_sum_raises Z zero_die 5%Z tape).
  vm_compute. reflexivity.
Defined.

(** C8, as amended.  For every die whose probabilities the sampler accepts
    (no NaN, none negative, their sum within 2^-26 of 1) and every
    non-negative [n], [roll(n)] returns a list of exactly [n] outcomes, each
    a face of the die, and leaves the die as it was. *)
Theorem roll_returns_n_faces :
  forall (A : Type) (d : Die A) (n : Z) (rs : Np.RandomState),
    (0 <= n)%Z ->
    rollable d = true ->
    exists (l : list A) (rs' : Np.RandomState),
      roll d n rs = (Ok l, (d, rs')) /\
      length l = Z.to_nat n /\
      Forall (fun x => In x (die_faces d)) l.
Proof.
  intros A d n rs Hn Hd.
  destruct (roll_ok d rs Hd Hn) as (l & Hl & Hlen & Hin).
  exists l, (snd (Np.random_sample (Z.to_nat n) rs)). auto.
Qed.

Lemma roll_returns_n_faces_witness :
  exists (l : list Z) (rs' : Np.RandomState),
    roll fair_die 5 tape = (Ok l, (fair_die, rs')) /\
    length l = 5%nat /\
    Forall (fun x => In x [1; 2; 3]%Z) l.
Proof.
  apply (@roll_returns_n_faces Z fair_die 5%Z tape).
  - vm_compute. discriminate.
  - vm_compute. reflexivity.
Defined.

(** C8 as stated fails: a positive weight sum does not make a die
    rollable.  With weights 2 and -1 the sum is 1, the probabilities are 2
    and -1, and the sampler raises ValueError. *)
Lemma roll_positive_sum_counterexample :
  (0 <? Np.sum (die_weights negative_die))%float = true /\
  fst (roll negative_die 1 tape) = Raise ValueError.
Proof. split; vm_compute; reflexivity. Qed.

(** C7, as amended.  [change_weight(f, w)] on a face of the die with a
    weight that [float] converts sets the snapshot's weight of [f] to the
    converted value and leaves every other face's weight and the faces
    themselves as they were.  On a face that is not on the die it raises
    IndexError; on a weight for which [float] raises ValueError or TypeError
    it raises TypeError; and on a weight for which [float] raises
    OverflowError, which happens exactly for an int beyond the range of a
    double, that OverflowError propagates: [except ValueError] does not
    catch it.  The die is unchanged in all three cases, and [float] does
    nothing else, so these cases cover every call. *)
Theorem change_weight_frame :
  forall (A : Type) (FA : Face A) (parse_float : string -> option float)
         (d : Die A) (f : A) (w : pyobj),
    (In f (die_faces d) ->
     forall x, py_float parse_float w = Ok x ->
     exists d',
       change_weight parse_float d f w = (Ok tt, d') /\
       weight_at f (Die_show d') = Some x /\
       (forall g, g <> f ->
                  weight_at g (Die_show d') = weight_at g (Die_show d)) /\
       die_faces d' = die_faces d) /\
    (~ In f (die_faces d) ->
     change_weight parse_float d f w = (Raise IndexError, d)) /\
    (In f (die_faces d) ->
     forall e, py_float parse_float w = Raise e ->
               e = ValueError \/ e = TypeError ->
     change_weight parse_float d f w = (Raise TypeError, d)) /\
    (In f (die_faces d) ->
     py_float parse_float w = Raise OverflowError ->
     change_weight parse_float d f w = (Raise OverflowError, d)) /\
    (py_float parse_float w = Raise OverflowError <->
     exists z, w = PyInt z /\ is_infinity (Z2float z) = true) /\
    ((exists x, py_float parse_float w = Ok x) \/
     (exists e, py_float parse_float w = Raise e /\
                (e = ValueError \/ e = TypeError \/ e = OverflowError))).
Proof.
  intros A FA parse_float d f w.
  split; [| split; [| split; [| split; [| split]]]].
  - intros Hf x Hw. exists (mkDie (set_at f x (_df d))).
    repeat split.
    + now apply change_weight_ok.
    + now apply weight_at_set_at_same.
    + intros g Hg. now apply weight_at_set_at_other.
    + apply set_at_faces.
  - now apply change_weight_unknown_face.
  - intros Hf e Hw He. eapply change_weight_not_numeric; eauto.
  - intros Hf Hw. unfold change_weight.
    apply mem_In in Hf. now rewrite Hf, Hw.
  - destruct w as [x | z | s |]; simpl.
    + split; [discriminate | intros (z & Hz & _); discriminate].
    + destruct (is_infinity (Z2float z)) eqn:E; split.
      * intros _. now exists z.
      * reflexivity.
      * discriminate.
      * intros (z' & Hz & Hinf). injection Hz as <-. congruence.
    + destruct (parse_float s);
        (split; [discriminate | intros (z & Hz & _); discriminate]).
    + split; [discriminate | intros (z & Hz & _); discriminate].
  - destruct w as [x | z | s |]; simpl.
    + left. now exists x.
    + destruct (is_infinity (Z2float z)).
      * right. exists OverflowError. auto.
      * left. now exists (Z2float z).
    + destruct (parse_float s) as [x |].
      * left. now exists x.
      * right. exists ValueError. auto.
    + right. exists TypeError. auto.
Qed.

Lemma change_weight_frame_witness :
  (exists d',
     change_weight parse_nan fair_die 2%Z (PyInt 5) = (Ok tt, d') /\
     weight_at 2%Z (Die_show d') = Some 5%float /\
     (forall g, g <> 2%Z ->
                weight_at g (Die_show d') = weight_at g (Die_show fair_die)) /\
     die_faces d' = die_faces fair_die) /\
  change_weight parse_nan fair_die 7%Z (PyInt 5) = (Raise IndexError, fair_die) /\
  change_weight parse_nan fair_die 2%Z (PyStr "heavy") = (Raise TypeError, fair_die) /\
  change_weight parse_nan fair_die 2%Z (PyInt (10 ^ 400))
    = (Raise OverflowError, fair_die).
Proof.
  split; [| split; [| split]].
  - apply (proj1 (@change_weight_frame Z Face_Z parse_nan fair_die 2%Z (PyInt 5))).
    + simpl. auto.
    + vm_compute. reflexivity.
  - apply (proj1 (proj2 (@change_weight_frame Z Face_Z parse_nan fair_die 7%Z (PyInt 5)))).
    simpl. intros [H | [H | [H | []]]]; discriminate.
  - apply (proj1 (proj2 (proj2 (@change_weight_frame Z Face_Z parse_nan fair_die 2%Z
                                                      (PyStr "heavy"))))) with ValueError.
    + simpl. auto.
    + vm_compute. reflexivity.
    + now left.
  - apply (proj1 (proj2 (proj2 (proj2
             (@change_weight_frame Z Face_Z parse_nan fair_die 2%Z
                                   (PyInt (10 ^ 400))))))).
    + simpl. auto.
    + vm_compute. reflexivity.
Defined.

(** C7 as stated fails: an int is interpretable as a real number, yet
    [change_weight(2, 10**400)] on a die with faces 1, 2, 3 neither stores
    a weight nor raises TypeError.  [float(10**400)] raises OverflowError,
    the [except ValueError] clause lets it through, and the call ends in
    OverflowError with the weights as they were. *)
Lemma change_weight_overflow_counterexample :
  In 2%Z (die_faces fair_die) /\
  py_float parse_nan (PyInt (10 ^ 400)) = Raise OverflowError /\
  change_weight parse_nan fair_die 2%Z (PyInt (10 ^ 400))
    = (Raise OverflowError, fair_die) /\
  fst (change_weight parse_nan fair_die 2%Z (PyInt (10 ^ 400))) <> Ok tt /\
  fst (change_weight parse_nan fair_die 2%Z (PyInt (10 ^ 400)))
    <> Raise TypeError.
Proof.
  assert (H : change_weight parse_nan fair_die 2%Z (PyInt (10 ^ 400))
              = (Raise OverflowError, fair_die))
    by (vm_compute; reflexivity).
  split; [simpl; auto |]. split; [vm_compute; reflexivity |].
  split; [exact H |]. rewrite H. split; discriminate.
Qed.



(** ** Game *)

(** C6, as amended.  When the sampler accepts the probabilities of every
    die, [play(n)] with [n >= 0] succeeds and stores a table that depends on
    the dice and the generator only, not on what was stored before.  Over
    [k >= 1] dice its 'wide' view has [n] rows and [k] columns (over no dice
    it has no rows and no columns); its 'narrow' view has [n * k] rows
    indexed by (roll number, die number), roll number first, and the single
    column 'outcome'.  [n = 0] yields tables without rows. *)
Theorem play_then_show_shapes :
  forall (A : Type) (g : Game A) (n : Z) (rs : Np.RandomState),
    (0 <= n)%Z ->
    Forall (fun d => rollable d = true) (dice g) ->
    exists (g' : Game A) (rs' : Np.RandomState) (wide narrow : DataFrame A),
      play g n rs = (Ok tt, (g', rs')) /\
      play (Game_init (dice g)) n rs = (Ok tt, (g', rs')) /\
      dice g' = dice g /\
      show g' "wide" = Ok (Some wide) /\
      shape wide = ((if (length (dice g) =? 0)%nat then 0%nat else Z.to_nat n),
                    length (dice g)) /\
      length (values wide) = fst (shape wide) /\
      Forall (fun r => length r = length (dice g)) (values wide) /\
      show g' "narrow" = Ok (Some narrow) /\
      index_names narrow = [Some "roll_number"%string; Some "die_number"%string] /\
      index narrow =
        flat_map (fun i => map (fun j => [LInt i; LInt j])
                               (seq 0 (length (dice g))))
                 (seq 0 (Z.to_nat n)) /\
      length (index narrow) = (Z.to_nat n * length (dice g))%nat /\
      columns narrow = [LStr "outcome"] /\
      values narrow = map (fun x => [x]) (concat (values wide)).
Proof.
  intros A g n rs Hn Hd.
  destruct (play_ok g rs Hn Hd) as (cols & df & rs' & Hplay & Hdf & Hk & Hlen & _).
  destruct (show_shapes (dice g) Hdf Hlen)
    as (wide & narrow & Hw & Hs & Hv & Hr & _ & Hnw & Hin & Hi & Hil & Hc & Hvn).
  rewrite Hk in *.
  exists (mkGame (dice g) (Some (set_index_name df "roll_number"))), rs',
         wide, narrow.
  repeat split; auto.
  - rewrite <- play_replaces; [exact Hplay | now rewrite Hplay].
  - now rewrite Hs.
Qed.

Lemma play_then_show_shapes_witness :
  exists (g' : Game Z) (rs' : Np.RandomState) (wide narrow : DataFrame Z),
    play fresh_game 3 tape = (Ok tt, (g', rs')) /\
    play (Game_init (dice fresh_game)) 3 tape = (Ok tt, (g', rs')) /\
    dice g' = dice fresh_game /\
    show g' "wide" = Ok (Some wide) /\
    shape wide = (3%nat, 2%nat) /\
    length (values wide) = fst (shape wide) /\
    Forall (fun r => length r = 2%nat) (values wide) /\
    show g' "narrow" = Ok (Some narrow) /\
    index_names narrow = [Some "roll_number"%string; Some "die_number"%string] /\
    index narrow =
      [[LInt 0; LInt 0]; [LInt 0; LInt 1]; [LInt 1; LInt 0]; [LInt 1; LInt 1];
       [LInt 2; LInt 0]; [LInt 2; LInt 1]] /\
    length (index narrow) = 6%nat /\
    columns narrow = [LStr "outcome"] /\
    values narrow = map (fun x => [x]) (concat (values wide)).
Proof.
  apply (@play_then_show_shapes Z fresh_game 3%Z tape).
  - vm_compute. discriminate.
  - repeat constructor.
Defined.

(** C6 as stated fails twice over.  A die of positive weight sum need not
    be rollable: over the die with weights 2 and -1, [play(1)] raises
    ValueError and nothing is stored.  And over no dice at all, [play(3)]
    stores a table with no rows, not three. *)
Lemma play_positive_sum_counterexample :
  (Forall (fun d => (0 <? Np.sum (die_weights d))%float = true)
          (dice negative_game) /\
   fst (play negative_game 1 tape) = Raise ValueError /\
   show (fst (snd (play negative_game 1 tape))) "wide" = Ok None) /\
  (fst (play empty_game 3 tape) = Ok tt /\
   exists wide,
     show (fst (snd (play empty_game 3 tape))) "wide" = Ok (Some wide) /\
     shape wide = (0%nat, 0%nat)).
Proof.
  split; [split; [| split] | split].
  - repeat constructor.
  - vm_compute. reflexivity.
  - vm_compute. reflexivity.
  - vm_compute. reflexivity.
  - eexists. split; vm_compute; reflexivity.
Qed.

(** C4.  [play] is atomic with respect to the stored table: when the call
    raises (a die's [roll] raised, and the exception left the loop), the
    game is exactly as it was, so the table of the previous play is still
    the one every [show] returns.  This is what happens whenever the sampler
    rejects the probabilities of one of the dice. *)
Theorem play_failure_keeps_table :
  forall (A : Type) (g : Game A) (n : Z) (rs : Np.RandomState),
    (forall e : exn,
        fst (play g n rs) = Raise e ->
        fst (snd (play g n rs)) = g /\
        _results (fst (snd (play g n rs))) = _results g /\
        forall form, show (fst (snd (play g n rs))) form = show g form) /\
    (Exists (fun d => rollable d = false) (dice g) ->
     exists (e : exn) (rs' : Np.RandomState),
       play g n rs = (Raise e, (g, rs'))).
Proof.
  intros A g n rs.
  assert (Hkeep : forall e, fst (play g n rs) = Raise e ->
                            fst (snd (play g n rs)) = g)
    by (intros e H; exact (play_raise_keeps g n rs H)).
  split.
  - intros e H. rewrite (Hkeep e H). auto.
  - intros H. destruct (play_raises g n rs H) as (e & He).
    specialize (Hkeep e He).
    destruct (play g n rs) as [r [g' rs']]. simpl in *. subst.
    now exists e, rs'.
Qed.

Lemma play_failure_keeps_table_witness :
  (fst (snd (play stale_game 4 tape)) = stale_game /\
   _results (fst (snd (play stale_game 4 tape))) = Some table_3x2 /\
   forall form, show (fst (snd (play stale_game 4 tape))) form
                = show stale_game form) /\
  (exists (e : exn) (rs' : Np.RandomState),
      play stale_game 4 tape = (Raise e, (stale_game, rs'))).
Proof.
  destruct (@play_failure_keeps_table Z stale_game 4%Z tape) as (H1 & H2).
  split.
  - apply (H1 ValueError). vm_compute. reflexivity.
  - apply H2. apply Exists_cons_tl, Exists_cons_hd. vm_compute. reflexivity.
Defined.

(** C3.  Before any play, [show] returns [None] whatever the form, the
    unknown ones included: the test for a stored table comes first, so
    [show(form='invalid')] on a fresh game raises nothing.  Once a table is
    stored, a form other than 'wide' and 'narrow' raises ValueError. *)
Theorem show_unplayed_ignores_form :
  forall (A : Type),
    (forall (ds : list (Die A)) (form : string),
        show (Game_init ds) form = Ok None) /\
    (forall (g : Game A) (df : DataFrame A) (form : string),
        _results g = Some df ->
        form <> "wide"%string -> form <> "narrow"%string ->
        show g form = Raise ValueError) /\
    show fresh_game "invalid" = Ok None.
Proof.
  intros A. repeat split.
  intros g df form Hr Hw Hn. unfold show. rewrite Hr.
  apply String.eqb_neq in Hw, Hn. now rewrite Hw, Hn.
Qed.

(** ** Analyzer *)

(** C2, as amended.  Constructing an Analyzer from a game that was never
    played succeeds and stores what [show('wide')] returns for such a game,
    which is [None]; constructing it from anything that is not a Game raises
    ValueError. *)
Theorem analyzer_init_unplayed :
  forall (A : Type) (ds : list (Die A)),
    Analyzer_init (IsGame (Game_init ds))
      = Ok (mkAnalyzer (Game_init ds) None None None None None) /\
    Analyzer_init (@NotGame A) = Raise ValueError.
Proof. intros A ds. split; reflexivity. Qed.

(** C2 as stated fails: for a fresh game over two fair dice the analyzer
    holds no table at all, and each of its four statistics raises
    AttributeError instead of returning an empty or zero result. *)
Lemma analyzer_unplayed_counterexample :
  exists a : Analyzer Z,
    Analyzer_init (IsGame fresh_game) = Ok a /\
    _df_results a = None /\
    fst (jackpot a) = Raise AttributeError /\
    fst (face_counts_per_roll a) = Raise AttributeError /\
    fst (combo a) = Raise AttributeError /\
    fst (permutation a) = Raise AttributeError.
Proof. eexists. repeat split. Qed.

(** C9.  [face_counts_per_roll] takes as columns the distinct values found
    in the stored table, in order of first occurrence when the table is read
    row by row (a value joins the end of the columns the first time it is
    met), whatever the alphabets of the dice.  It keeps the index of the
    table, and in every row the cell under [v] is the number of the row's
    cells equal to [v]: 0 when [v] is absent from the row, and the cells of
    a row add up to the number of dice.  For the single row (1,1,2) the
    columns are 1 and 2 and the counts 2 and 1. *)
Theorem face_counts_columns_and_cells :
  (forall (A : Type) (FA : Face A) (a : Analyzer A) (df : DataFrame A),
      _df_results a = Some df ->
      exists (t : FaceCounts A) (a' : Analyzer A),
        face_counts_per_roll a = (Ok t, a') /\
        face_counts a' = Some t /\
        _df_results a' = Some df /\
        fc_columns t = unique face_eqb (concat (values df)) /\
        NoDup (fc_columns t) /\
        (forall v, In v (fc_columns t) <->
                   exists row, In row (values df) /\ In v row) /\
        fc_index t = index df /\
        fc_values t =
          map (fun row => map (fun v => count face_eqb v row) (fc_columns t))
              (values df) /\
        (forall row v, ~ In v row -> count face_eqb v row = 0%nat) /\
        (forall row v, In v row -> (0 < count face_eqb v row)%nat) /\
        (forall row, In row (values df) ->
           list_sum (map (fun v => count face_eqb v row) (fc_columns t))
           = length row)) /\
  (forall (A : Type) (FA : Face A) (l : list A) (x : A),
      unique face_eqb (l ++ [x]) =
      if mem face_eqb x l then unique face_eqb l
      else unique face_eqb l ++ [x]) /\
  fst (face_counts_per_roll (analyzer_of table_1x3)) =
    Ok (mkFaceCounts [[LInt 0]] [1; 2]%Z [[2; 1]]%nat).
Proof.
  split; [| split].
  - intros A FA a df Hdf. unfold face_counts_per_roll. rewrite Hdf.
    eexists _, _. split; [reflexivity |].
    cbn [face_counts _df_results fc_columns fc_index fc_values].
    repeat split; auto.
    + apply (@unique_NoDup _ _ face_eqb_eq).
    + apply observed_faces.
    + apply observed_faces.
    + intros row v H. now apply (@count_zero _ _ face_eqb_eq).
    + intros row v H. now apply (@count_pos _ _ face_eqb_eq).
    + intros row Hrow. apply row_counts_sum.
      * apply (@unique_NoDup _ _ face_eqb_eq).
      * intros x Hx. apply observed_faces. eauto.
  - intros A FA l x. apply (@unique_snoc _ face_eqb).
  - vm_compute. reflexivity.
Qed.

Lemma face_counts_columns_and_cells_witness :
  exists (t : FaceCounts Z) (a' : Analyzer Z),
    face_counts_per_roll (analyzer_of table_3x2) = (Ok t, a') /\
    face_counts a' = Some t /\
    _df_results a' = Some table_3x2 /\
    fc_columns t = [1; 2]%Z /\
    NoDup (fc_columns t) /\
    (forall v, In v (fc_columns t) <->
               exists row, In row (values table_3x2) /\ In v row) /\
    fc_index t = [[LInt 0]; [LInt 1]; [LInt 2]] /\
    fc_values t =
      map (fun row => map (fun v => count face_eqb v row) (fc_columns t))
          (values table_3x2) /\
    (forall row v, ~ In v row -> count face_eqb v row = 0%nat) /\
    (forall row v, In v row -> (0 < count face_eqb v row)%nat) /\
    (forall row, In row (values table_3x2) ->
       list_sum (map (fun v => count face_eqb v row) (fc_columns t))
       = length row).
Proof.
  exact (proj1 face_counts_columns_and_cells Z Face_Z
               (analyzer_of table_3x2) table_3x2 eq_refl).
Defined.

(** C5.  [combo] keys each row by its outcomes sorted in ascending order,
    so rows holding the same outcomes in any order share a key; [permutation]
    keys each row by its outcomes in die order.  Each table holds exactly the
    keys that occur, each once, with the number of rows under that key.  For
    the rows (1,2), (2,1), (1,1), [combo] has the two keys (1,1), counted
    once, and (1,2), counted twice; [permutation] has the three keys (1,2),
    (2,1) and (1,1), each counted once. *)
Theorem combo_permutation_keys :
  (forall (A : Type) (FA : Face A) (a : Analyzer A) (df : DataFrame A),
      _df_results a = Some df ->
      exists (tc tp : list (list A * nat)) (ac ap : Analyzer A),
        combo a = (Ok tc, ac) /\ combo_counts ac = Some tc /\
        permutation a = (Ok tp, ap) /\ permutation_counts ap = Some tp /\
        NoDup (map fst tc) /\ NoDup (map fst tp) /\
        (forall k c, In (k, c) tc <->
           c = count tuple_eqb k (map sorted (values df)) /\ (0 < c)%nat) /\
        (forall k c, In (k, c) tp <->
           c = count tuple_eqb k (values df) /\ (0 < c)%nat) /\
        (forall k c, lookup_count k tc = Some c <-> In (k, c) tc) /\
        (forall k c, lookup_count k tp = Some c <-> In (k, c) tp)) /\
  (forall (A : Type) (FA : Face A) (row : list A),
      StronglySorted face_le (sorted row) /\
      Permutation (sorted row) row) /\
  (forall (A : Type) (FA : Face A) (r1 r2 : list A),
      sorted r1 = sorted r2 <-> Permutation r1 r2) /\
  (forall (A : Type) (FA : Face A) (k1 k2 : list A),
      tuple_eqb k1 k2 = true <-> k1 = k2) /\
  (exists tc tp : list (list Z * nat),
      fst (combo (analyzer_of table_3x2)) = Ok tc /\
      length tc = 2%nat /\
      lookup_count [1; 1]%Z tc = Some 1%nat /\
      lookup_count [1; 2]%Z tc = Some 2%nat /\
      fst (permutation (analyzer_of table_3x2)) = Ok tp /\
      length tp = 3%nat /\
      lookup_count [1; 2]%Z tp = Some 1%nat /\
      lookup_count [2; 1]%Z tp = Some 1%nat /\
      lookup_count [1; 1]%Z tp = Some 1%nat).
Proof.
  split; [| split; [| split; [| split]]].
  - intros A FA a df Hdf. unfold combo, permutation. rewrite Hdf.
    eexists _, _, _, _. split; [reflexivity |].
    split; [reflexivity |]. split; [reflexivity |]. split; [reflexivity |].
    unfold apply_rows. rewrite map_id.
    split; [apply value_counts_NoDup |].
    split; [apply value_counts_NoDup |].
    split; [intros k c; apply value_counts_In |].
    split; [intros k c; apply value_counts_In |].
    split; intros k c; apply lookup_count_In, value_counts_NoDup.
  - intros A FA row. split; [apply sorted_ascending | apply sorted_perm].
  - intros A FA r1 r2. apply sorted_eq_iff.
  - intros A FA k1 k2. apply tuple_eqb_eq.
  - eexists _, _. repeat split; vm_compute; reflexivity.
Qed.

Lemma combo_permutation_keys_witness :
  exists (tc tp : list (list Z * nat)) (ac ap : Analyzer Z),
    combo (analyzer_of table_3x2) = (Ok tc, ac) /\ combo_counts ac = Some tc /\
    permutation (analyzer_of table_3x2) = (Ok tp, ap) /\
    permutation_counts ap = Some tp /\
    NoDup (map fst tc) /\ NoDup (map fst tp) /\
    (forall k c, In (k, c) tc <->
       c = count tuple_eqb k (map sorted (values table_3x2)) /\ (0 < c)%nat) /\
    (forall k c, In (k, c) tp <->
       c = count tuple_eqb k (values table_3x2) /\ (0 < c)%nat) /\
    (forall k c, lookup_count k tc = Some c <-> In (k, c) tc) /\
    (forall k c, lookup_count k tp = Some c <-> In (k, c) tp).
Proof.
  exact (proj1 combo_permutation_keys Z Face_Z
               (analyzer_of table_3x2) table_3x2 eq_refl).
Defined.

(** * Further properties of the code *)

Import MoreSamples.

(** ** Die: construction and weight updates *)

Section DieMore.

Context {A : Type} {FA : Face A}.
Variable parse_float : string -> option float.

Lemma filter_length_le {X : Type} (f : X -> bool) (l : list X) :
  length (filter f l) <= length l.
Proof. induction l as [| x l IH]; simpl; [| destruct (f x); simpl]; lia. Qed.

Lemma unique_length_le (l : list A) : length (unique face_eqb l) <= length l.
Proof.
  induction l as [| x l IH]; simpl; [lia |].
  pose proof (filter_length_le (fun y => negb (face_eqb y x)) (unique face_eqb l)).
  lia.
Qed.

Lemma filter_all {X : Type} (f : X -> bool) (l : list X) :
  (forall x, In x l -> f x = true) -> filter f l = l.
Proof.
  induction l as [| x l IH]; intros H; simpl; [reflexivity |].
  rewrite (H x (or_introl eq_refl)), IH; auto.
  intros y Hy. apply H. now right.
Qed.

Lemma filter_length_all {X : Type} (f : X -> bool) (l : list X) :
  length (filter f l) = length l -> forall x, In x l -> f x = true.
Proof.
  induction l as [| y l IH]; simpl; [tauto |].
  pose proof (filter_length_le f l) as Hle.
  destruct (f y) eqn:E; simpl; intros Hlen x [<- | Hx]; auto; try lia.
Qed.

(** A list is its own [unique] exactly when it has no duplicate. *)
Lemma unique_NoDup_id (l : list A) : NoDup l -> unique face_eqb l = l.
Proof.
  induction 1 as [| x l Hnin Hnd IH]; simpl; [reflexivity |].
  rewrite IH. f_equal. apply filter_all.
  intros y Hy. rewrite face_eqb_neq; [reflexivity | congruence].
Qed.

Lemma unique_length_NoDup (l : list A) :
  length (unique face_eqb l) = length l -> NoDup l.
Proof.
  induction l as [| x l IH]; simpl; intros H; [constructor |].
  pose proof (filter_length_le (fun y => negb (face_eqb y x)) (unique face_eqb l))
    as H1.
  pose proof (unique_length_le l) as H2.
  assert (Hl : length (unique face_eqb l) = length l) by lia.
  constructor; [| now apply IH].
  intros Hin. apply (@unique_In _ _ face_eqb_eq) in Hin.
  assert (Hf : length (filter (fun y => negb (face_eqb y x)) (unique face_eqb l))
               = length (unique face_eqb l)) by lia.
  pose proof (filter_length_all _ _ Hf x Hin) as Hx. cbv beta in Hx.
  now rewrite face_eqb_refl in Hx.
Qed.

Lemma distinct_check (l : list A) :
  (length (unique face_eqb l) =? length l)%nat = true <-> NoDup l.
Proof.
  rewrite Nat.eqb_eq. split; [apply unique_length_NoDup |].
  intros H. now rewrite unique_NoDup_id.
Qed.

Lemma weight_at_fresh (w : float) (fs : list A) (f : A) :
  In f fs -> weight_at f (map (fun g => (g, w)) fs) = Some w.
Proof.
  induction fs as [| g fs IH]; simpl; [tauto |].
  intros [-> | H]; [now rewrite face_eqb_refl |].
  destruct (face_eqb g f); auto.
Qed.

Lemma weight_at_absent (df : list (A * float)) (f : A) :
  ~ In f (map fst df) -> weight_at f df = None.
Proof.
  induction df as [| [g w] df IH]; simpl; [reflexivity |].
  intros H. rewrite face_eqb_neq by tauto. apply IH. tauto.
Qed.

(** *** Composition of weight updates *)

Lemma set_at_twice (f : A) (w1 w2 : float) (df : list (A * float)) :
  set_at f w2 (set_at f w1 df) = set_at f w2 df.
Proof.
  unfold set_at. rewrite map_map. apply map_ext. intros [g x]. simpl.
  destruct (face_eqb g f) eqn:E; simpl; now rewrite E.
Qed.

Lemma set_at_swap (f g : A) (w1 w2 : float) (df : list (A * float)) :
  f <> g ->
  set_at g w2 (set_at f w1 df) = set_at f w1 (set_at g w2 df).
Proof.
  intros Hne. unfold set_at. rewrite !map_map. apply map_ext.
  intros [h x]. simpl.
  destruct (face_eqb h f) eqn:Ef; destruct (face_eqb h g) eqn:Eg; simpl;
    rewrite ?Ef, ?Eg; try reflexivity.
  apply face_eqb_eq in Ef, Eg. congruence.
Qed.

(** Writing back the weight a face already has changes nothing, when the
    faces are distinct. *)
Lemma set_at_same_weight (f : A) (w : float) (df : list (A * float)) :
  NoDup (map fst df) -> weight_at f df = Some w -> set_at f w df = df.
Proof.
  induction df as [| [g x] df IH]; simpl; intros Hnd Hw; [reflexivity |].
  inversion Hnd as [| ? ? Hnin Hnd']; subst.
  destruct (face_eqb g f) eqn:E.
  - apply face_eqb_eq in E. subst g. inversion Hw; subst x. f_equal.
    unfold set_at. rewrite <- (map_id df) at 2. apply map_ext_in.
    intros [h y] Hin. simpl.
    rewrite face_eqb_neq; [reflexivity |].
    intros ->. apply Hnin. apply in_map_iff. now exists (f, y).
  - f_equal. now apply IH.
Qed.

Lemma change_weight_faces (d : Die A) (f : A) (w : pyobj) :
  die_faces (snd (change_weight parse_float d f w)) = die_faces d.
Proof.
  unfold change_weight.
  destruct (negb (mem face_eqb f (die_faces d))); [reflexivity |].
  destruct (py_float parse_float w) as [x | e]; simpl.
  - apply set_at_faces.
  - destruct e; reflexivity.
Qed.

Lemma change_weights_faces (calls : list (A * pyobj)) :
  forall d : Die A,
    die_faces (change_weights parse_float d calls) = die_faces d.
Proof.
  induction calls as [| c calls IH]; intros d; simpl; [reflexivity |].
  unfold change_weights in *. simpl. rewrite IH. apply change_weight_faces.
Qed.

End DieMore.

(** X1.  [Die(faces)] succeeds exactly on arrays of pairwise distinct
    faces: it then keeps the faces in the order given and gives every one
    of them the weight 1.0, and nothing else a weight.  An array with a
    repeated face raises ValueError, and anything that is not a numpy array
    raises TypeError. *)
Theorem Die_init_distinct_faces :
  forall (A : Type) (FA : Face A) (fs : list A),
    (NoDup fs ->
     exists d : Die A,
       Die_init (NdArray fs) = Ok d /\
       die_faces d = fs /\
       die_weights d = repeat 1%float (length fs) /\
       (forall f, In f fs -> weight_at f (Die_show d) = Some 1%float) /\
       (forall f, ~ In f fs -> weight_at f (Die_show d) = None)) /\
    (~ NoDup fs -> Die_init (NdArray fs) = Raise ValueError) /\
    Die_init (@NotNdArray A) = Raise TypeError.
Proof.
  intros A FA fs. split; [| split; [| reflexivity]].
  - intros Hnd. exists (mkDie (map (fun f => (f, 1%float)) fs)).
    unfold Die_init. rewrite (proj2 (distinct_check fs) Hnd). simpl.
    assert (Hf : map fst (map (fun f : A => (f, 1%float)) fs) = fs)
      by (rewrite map_map; apply map_id).
    repeat split.
    + exact Hf.
    + unfold die_weights. simpl. rewrite map_map. simpl.
      clear. induction fs; simpl; congruence.
    + intros f Hin. now apply weight_at_fresh.
    + intros f Hin. apply weight_at_absent. now rewrite Hf.
  - intros Hnd. unfold Die_init.
    destruct (length (unique face_eqb fs) =? length fs)%nat eqn:E;
      [| reflexivity].
    apply distinct_check in E. contradiction.
Qed.

Lemma Die_init_distinct_faces_witness :
  (exists d : Die Z,
      Die_init (NdArray [1; 2; 3]%Z) = Ok d /\
      die_faces d = [1; 2; 3]%Z /\
      die_weights d = [1; 1; 1]%float /\
      (forall f, In f [1; 2; 3]%Z -> weight_at f (Die_show d) = Some 1%float) /\
      (forall f, ~ In f [1; 2; 3]%Z -> weight_at f (Die_show d) = None)) /\
  Die_init (NdArray [1; 2; 1]%Z) = Raise ValueError.
Proof.
  split.
  - apply (proj1 (@Die_init_distinct_faces Z Face_Z [1; 2; 3]%Z)).
    repeat constructor; simpl; intuition discriminate.
  - apply (proj1 (proj2 (@Die_init_distinct_faces Z Face_Z [1; 2; 1]%Z))).
    intros H. inversion H as [| ? ? Hnin _]; subst. apply Hnin. simpl. auto.
Defined.

(** X2.  [change_weight] is all or nothing.  When it raises, the die is
    exactly as it was; the exception is IndexError when the face is not on
    the die and only then, and otherwise TypeError (the weight is not
    numeric) or OverflowError (an int beyond the range of a float, which the
    handler for ValueError lets through). *)
Theorem change_weight_raises_unchanged :
  forall (A : Type) (FA : Face A) (parse_float : string -> option float)
         (d : Die A) (f : A) (w : pyobj) (e : exn),
    fst (change_weight parse_float d f w) = Raise e ->
    snd (change_weight parse_float d f w) = d /\
    (e = IndexError \/ e = TypeError \/ e = OverflowError) /\
    (e = IndexError <-> ~ In f (die_faces d)).
Proof.
  intros A FA parse_float d f w e. unfold change_weight.
  destruct (mem face_eqb f (die_faces d)) eqn:Em; simpl.
  - apply mem_In in Em.
    destruct w as [x | z | s |]; simpl.
    + discriminate.
    + destruct (is_infinity (Z2float z)); simpl; [| discriminate].
      intros H. inversion H; subst. repeat split; auto; try discriminate.
      intros Hn. contradiction.
    + destruct (parse_float s); simpl; [discriminate |].
      intros H. inversion H; subst. repeat split; auto; try discriminate.
      intros Hn. contradiction.
    + intros H. inversion H; subst. repeat split; auto; try discriminate.
      intros Hn. contradiction.
  - intros H. inversion H; subst. repeat split; auto.
    intros _ Hin. apply mem_In in Hin. congruence.
Qed.

Lemma change_weight_raises_unchanged_witness :
  snd (change_weight parse_nan fair_die 2%Z (PyInt (10 ^ 400))) = fair_die /\
  (OverflowError = IndexError \/ OverflowError = TypeError
   \/ OverflowError = OverflowError) /\
  (OverflowError = IndexError <-> ~ In 2%Z (die_faces fair_die)).
Proof.
  apply (@change_weight_raises_unchanged Z Face_Z parse_nan fair_die 2%Z
           (PyInt (10 ^ 400)) OverflowError).
  vm_compute. reflexivity.
Defined.

(** X3.  Weight updates compose as assignments do.  Of two successful
    updates of one face the later one wins; successful updates of two
    different faces give the same die in either order; and on a die with
    distinct faces, writing back the weight a face already has leaves the
    die as it is. *)
Theorem change_weight_composition :
  forall (A : Type) (FA : Face A) (parse_float : string -> option float)
         (d : Die A) (f g : A) (w1 w2 : pyobj) (x1 x2 : float),
    In f (die_faces d) -> In g (die_faces d) ->
    py_float parse_float w1 = Ok x1 -> py_float parse_float w2 = Ok x2 ->
    snd (change_weight parse_float
           (snd (change_weight parse_float d f w1)) f w2)
      = snd (change_weight parse_float d f w2) /\
    (f <> g ->
     snd (change_weight parse_float
            (snd (change_weight parse_float d f w1)) g w2)
       = snd (change_weight parse_float
                (snd (change_weight parse_float d g w2)) f w1)) /\
    (NoDup (die_faces d) -> weight_at f (Die_show d) = Some x1 ->
     change_weight parse_float d f w1 = (Ok tt, d)).
Proof.
  intros A FA parse_float d f g w1 w2 x1 x2 Hf Hg H1 H2.
  assert (Hstep : forall (d0 : Die A) h w x,
             In h (die_faces d0) -> py_float parse_float w = Ok x ->
             snd (change_weight parse_float d0 h w) = mkDie (set_at h x (_df d0)))
    by (intros d0 h w x Hh Hw; now rewrite (change_weight_ok _ _ _ _ Hh Hw)).
  assert (Hfaces : forall h x, die_faces (mkDie (set_at h x (_df d))) = die_faces d)
    by (intros h x; apply set_at_faces).
  split; [| split].
  - rewrite (Hstep d f w1 x1), (Hstep d f w2 x2) by assumption.
    rewrite (Hstep _ f w2 x2) by (try rewrite Hfaces; assumption).
    simpl. now rewrite set_at_twice.
  - intros Hne.
    rewrite (Hstep d f w1 x1), (Hstep d g w2 x2) by assumption.
    rewrite (Hstep _ g w2 x2), (Hstep _ f w1 x1)
      by (try rewrite Hfaces; assumption).
    simpl. now rewrite set_at_swap.
  - intros Hnd Hw. rewrite (change_weight_ok _ _ _ _ Hf H1).
    rewrite set_at_same_weight; auto. now destruct d.
Qed.

Lemma change_weight_composition_witness :
  snd (change_weight parse_nan
         (snd (change_weight parse_nan fair_die 2%Z (PyInt 5))) 2%Z (PyFloat 0.5))
    = snd (change_weight parse_nan fair_die 2%Z (PyFloat 0.5)) /\
  (2%Z <> 3%Z ->
   snd (change_weight parse_nan
          (snd (change_weight parse_nan fair_die 2%Z (PyInt 5))) 3%Z (PyFloat 0.5))
     = snd (change_weight parse_nan
              (snd (change_weight parse_nan fair_die 3%Z (PyFloat 0.5)))
              2%Z (PyInt 5))) /\
  (NoDup (die_faces fair_die) ->
   weight_at 2%Z (Die_show fair_die) = Some 5%float ->
   change_weight parse_nan fair_die 2%Z (PyInt 5) = (Ok tt, fair_die)).
Proof.
  apply (@change_weight_composition Z Face_Z parse_nan fair_die 2%Z 3%Z
           (PyInt 5) (PyFloat 0.5) 5%float 0.5%float).
  - simpl. auto.
  - simpl. auto.
  - vm_compute. reflexivity.
  - reflexivity.
Defined.

(** X4.  The faces of a die are fixed at construction.  Whatever calls of
    [change_weight] follow, with whatever arguments, raising or not, the die
    keeps the faces it was built with, in the same order and pairwise
    distinct, and holds exactly one weight for each of them. *)
Theorem die_faces_invariant :
  forall (A : Type) (FA : Face A) (parse_float : string -> option float)
         (fs : list A) (d : Die A) (calls : list (A * pyobj)),
    Die_init (NdArray fs) = Ok d ->
    die_faces (change_weights parse_float d calls) = fs /\
    NoDup (die_faces (change_weights parse_float d calls)) /\
    length (die_weights (change_weights parse_float d calls)) = length fs /\
    (forall f, In f fs <->
       exists w, weight_at f (Die_show (change_weights parse_float d calls))
                 = Some w).
Proof.
  intros A FA parse_float fs d calls Hinit.
  assert (Hd : die_faces d = fs /\ NoDup fs).
  { unfold Die_init in Hinit.
    destruct (length (unique face_eqb fs) =? length fs)%nat eqn:E;
      simpl in Hinit; [| discriminate].
    apply distinct_check in E. apply Ok_inj in Hinit. subst d.
    split; [| exact E]. unfold die_faces. simpl. rewrite map_map. apply map_id. }
  destruct Hd as (Hfs & Hnd).
  pose proof (change_weights_faces parse_float calls d) as Hc.
  rewrite Hfs in Hc.
  set (d' := change_weights parse_float d calls) in *.
  split; [exact Hc |]. split; [now rewrite Hc |].
  split.
  - unfold die_weights. rewrite length_map, <- (length_map fst). fold (die_faces d').
    now rewrite Hc.
  - intros f. rewrite <- Hc. unfold Die_show, die_faces.
    generalize (_df d'). intros df. split.
    + induction df as [| [g x] df IH]; simpl; [tauto |].
      intros [-> | H]; [rewrite face_eqb_refl; eauto |].
      destruct (face_eqb g f); eauto.
    + intros (w & Hw).
      destruct (mem face_eqb f (map fst df)) eqn:Em; [now apply mem_In |].
      assert (Hnin : ~ In f (map fst df))
        by (intros Hin; apply mem_In in Hin; congruence).
      rewrite (weight_at_absent _ _ Hnin) in Hw. discriminate.
Qed.

Lemma die_faces_invariant_witness :
  die_faces (change_weights parse_nan fair_die
               [(2%Z, PyInt 5); (9%Z, PyInt 1); (1%Z, PyStr "x"); (3%Z, PyStr "nan")])
    = [1; 2; 3]%Z /\
  NoDup (die_faces (change_weights parse_nan fair_die
               [(2%Z, PyInt 5); (9%Z, PyInt 1); (1%Z, PyStr "x"); (3%Z, PyStr "nan")])) /\
  length (die_weights (change_weights parse_nan fair_die
               [(2%Z, PyInt 5); (9%Z, PyInt 1); (1%Z, PyStr "x"); (3%Z, PyStr "nan")]))
    = 3%nat /\
  (forall f, In f [1; 2; 3]%Z <->
     exists w, weight_at f (Die_show (change_weights parse_nan fair_die
               [(2%Z, PyInt 5); (9%Z, PyInt 1); (1%Z, PyStr "x"); (3%Z, PyStr "nan")]))
               = Some w).
Proof.
  apply (@die_faces_invariant Z Face_Z parse_nan [1; 2; 3]%Z fair_die).
  vm_compute. reflexivity.
Defined.

(** ** Die: rolling *)

Module FloatMore.

Local Open Scope float_scope.

(** A double is determined by its decoding. *)
Lemma Prim2SF_eq (x y : float) : Prim2SF x = Prim2SF y -> x = y.
Proof.
  intros H. rewrite <- (SF2Prim_Prim2SF x), <- (SF2Prim_Prim2SF y).
  now rewrite H.
Qed.

Lemma add_nonfinite_r (x y : float) :
  Np.nonfinite y = true -> Np.nonfinite (x + y) = true.
Proof.
  unfold Np.nonfinite. rewrite add_spec.
  destruct (Prim2SF y) as [b | b | | b m e]; try discriminate; intros _.
  - destruct (Prim2SF x) as [c | c | | c m e]; cbn; try reflexivity.
    destruct c, b; reflexivity.
  - destruct (Prim2SF x); reflexivity.
Qed.

Lemma div_nonfinite_nan (x y : float) :
  Np.nonfinite x = true -> Np.nonfinite y = true ->
  Prim2SF (x / y) = S754_nan.
Proof.
  unfold Np.nonfinite. rewrite div_spec.
  destruct (Prim2SF x) as [b | b | | b m e]; try discriminate;
    destruct (Prim2SF y) as [c | c | | c m' e']; try discriminate; reflexivity.
Qed.

Lemma add_nan_l (x y : float) :
  Prim2SF x = S754_nan -> Prim2SF (x + y) = S754_nan.
Proof. intros H. rewrite add_spec, H. reflexivity. Qed.

Lemma add_nan_r (x y : float) :
  Prim2SF y = S754_nan -> Prim2SF (x + y) = S754_nan.
Proof. intros H. rewrite add_spec, H. destruct (Prim2SF x); reflexivity. Qed.

Lemma sub_nan_l (x y : float) :
  Prim2SF x = S754_nan -> Prim2SF (x - y) = S754_nan.
Proof. intros H. rewrite sub_spec, H. reflexivity. Qed.

(** A non-finite term makes the sum non-finite. *)
Lemma sum_nonfinite (a : list float) :
  forall acc,
    Np.nonfinite acc = true \/ Exists (fun w => Np.nonfinite w = true) a ->
    Np.nonfinite (fold_left PrimFloat.add a acc) = true.
Proof.
  induction a as [| w a IH]; intros acc [H | H]; simpl.
  - exact H.
  - inversion H.
  - apply IH. left. now apply FloatFacts.add_nonfinite.
  - apply IH. inversion H as [? ? Hw | ? ? Ha]; subst.
    + left. now apply add_nonfinite_r.
    + now right.
Qed.

(** A NaN among the probabilities makes their compensated sum NaN. *)
Lemma kahan_loop_nan (darr : list float) :
  forall sum c,
    Prim2SF sum = S754_nan \/ Exists (fun x => Prim2SF x = S754_nan) darr ->
    Prim2SF (Np.kahan_loop sum c darr) = S754_nan.
Proof.
  induction darr as [| x rest IH]; intros sum c [H | H]; simpl.
  - exact H.
  - inversion H.
  - apply IH. left. now apply add_nan_l.
  - apply IH. inversion H as [? ? Hx | ? ? Hr]; subst.
    + left. apply add_nan_r. now apply sub_nan_l.
    + now right.
Qed.

Lemma p_accepted_no_nan (p : list float) :
  Exists (fun x => Prim2SF x = S754_nan) p -> Np.p_accepted p = false.
Proof.
  intros H. unfold Np.p_accepted.
  assert (Hk : Prim2SF (Np.kahan_sum p) = S754_nan).
  { destruct p as [| x rest]; [inversion H |]. simpl.
    apply kahan_loop_nan. inversion H; subst; auto. }
  rewrite FloatFacts.is_nan_spec, Hk. reflexivity.
Qed.

(** Adding a finite non-zero double to zero gives it back. *)
Lemma add_zero_finite (w : float) (s : bool) (m : positive) (e : Z) :
  Prim2SF w = S754_finite s m e -> 0 + w = w.
Proof.
  intros H. apply Prim2SF_eq. rewrite add_spec, H.
  change (Prim2SF 0) with (S754_zero false). reflexivity.
Qed.

Lemma div_self_one (w : float) (s : bool) (m : positive) (e : Z) :
  Prim2SF w = S754_finite s m e -> w / w = 1.
Proof.
  intros H. apply Prim2SF_eq. rewrite div_spec, H.
  apply FloatFacts.div_self_finite.
Qed.

(** Neither zero, nor infinite, nor NaN. *)
Lemma finite_nonzero (w : float) :
  Np.nonfinite w = false -> (w =? 0) = false ->
  exists s m e, Prim2SF w = S754_finite s m e.
Proof.
  unfold Np.nonfinite. rewrite eqb_spec.
  change (Prim2SF 0) with (S754_zero false).
  destruct (Prim2SF w) as [b | b | | b m e]; try discriminate.
  intros _ _. eauto.
Qed.

End FloatMore.

(** ** Pairwise summation

    [Np.sum] adds blocks of eight accumulators and splits long arrays in
    halves.  The facts the dice need do not depend on the order of the
    additions: a weight that is not finite makes the sum not finite, and
    the bound on the recursion depth is immaterial. *)

Module SumFacts.

Local Open Scope float_scope.

Ltac nonfinite_sum :=
  repeat first
    [ assumption
    | apply FloatFacts.add_nonfinite; solve [nonfinite_sum]
    | apply FloatMore.add_nonfinite_r; solve [nonfinite_sum] ].

Lemma accumulate8_nonfinite (n : nat) :
  forall (a : list float) (r0 r1 r2 r3 r4 r5 r6 r7 : float),
    (length a <= n)%nat ->
    Exists (fun w => Np.nonfinite w = true) [r0; r1; r2; r3; r4; r5; r6; r7]
    \/ Exists (fun w => Np.nonfinite w = true) a ->
    Np.nonfinite (Np.accumulate8 r0 r1 r2 r3 r4 r5 r6 r7 a) = true.
Proof.
  induction n as [| n IH]; intros a r0 r1 r2 r3 r4 r5 r6 r7 Hlen H.
  - destruct a; [| simpl in Hlen; lia]. simpl.
    destruct H as [H | H]; [| inversion H].
    repeat (apply Exists_cons in H; destruct H as [H | H]);
      [nonfinite_sum .. | inversion H].
  - destruct a as [| x0 [| x1 [| x2 [| x3 [| x4 [| x5 [| x6 [| x7 rest]]]]]]]].
    9: { cbn [Np.accumulate8]. apply IH; [simpl in Hlen; lia |].
         destruct H as [H | H].
         - left.
           repeat (apply Exists_cons in H; destruct H as [H | H]);
             [ | | | | | | | | inversion H].
           all: repeat first [ apply Exists_cons_hd; apply FloatFacts.add_nonfinite; assumption | apply Exists_cons_tl ].
         - repeat (apply Exists_cons in H; destruct H as [H | H]);
             [ | | | | | | | | right; exact H ].
           all: left; repeat first [ apply Exists_cons_hd; apply FloatMore.add_nonfinite_r; assumption | apply Exists_cons_tl ]. }
    all: cbn [Np.accumulate8]; apply FloatMore.sum_nonfinite;
      destruct H as [H | H]; [left | right; exact H];
      repeat (apply Exists_cons in H; destruct H as [H | H]);
      [nonfinite_sum .. | inversion H].
Qed.

Lemma sum_block_nonfinite (a : list float) :
  Exists (fun w => Np.nonfinite w = true) a ->
  Np.nonfinite (Np.sum_block a) = true.
Proof.
  intros H.
  destruct a as [| x0 [| x1 [| x2 [| x3 [| x4 [| x5 [| x6 [| x7 rest]]]]]]]].
  9: { cbn [Np.sum_block]. apply (@accumulate8_nonfinite (length rest)); [lia |].
       repeat (apply Exists_cons in H; destruct H as [H | H]);
         [ | | | | | | | | right; exact H ].
       all: left; repeat first [ apply Exists_cons_hd; assumption
                               | apply Exists_cons_tl ]. }
  all: cbn [Np.sum_block]; apply FloatMore.sum_nonfinite; now right.
Qed.

Lemma split_lengths (n : nat) :
  (128 < n)%nat ->
  (0 < n / 2 - (n / 2) mod 8 /\ n / 2 - (n / 2) mod 8 < n)%nat.
Proof.
  intros H.
  pose proof (Nat.mod_upper_bound (n / 2) 8 ltac:(lia)).
  pose proof (Nat.div_lt n 2 ltac:(lia) ltac:(lia)).
  assert (64 <= n / 2)%nat by (apply Nat.div_le_lower_bound; lia).
  lia.
Qed.

(** A non-finite element makes the pairwise sum non-finite. *)
Lemma pairwise_sum_nonfinite (fuel : nat) :
  forall a,
    Exists (fun w => Np.nonfinite w = true) a ->
    Np.nonfinite (Np.pairwise_sum fuel a) = true.
Proof.
  assert (Hcut : forall k (a : list float),
             Exists (fun w => Np.nonfinite w = true) a ->
             Exists (fun w => Np.nonfinite w = true) (firstn k a)
             \/ Exists (fun w => Np.nonfinite w = true) (skipn k a)).
  { intros k a H. rewrite <- (firstn_skipn k a) in H.
    now apply Exists_app in H. }
  induction fuel as [| f IH]; intros a H; cbn [Np.pairwise_sum];
    destruct (length a <? 8)%nat;
    try (apply FloatMore.sum_nonfinite; now right);
    destruct (length a <=? 128)%nat; try now apply sum_block_nonfinite.
  destruct (Hcut (length a / 2 - (length a / 2) mod 8)%nat a H) as [H1 | H2].
  - apply FloatFacts.add_nonfinite. now apply IH.
  - apply FloatMore.add_nonfinite_r. now apply IH.
Qed.

Lemma sum_nonfinite_elt (a : list float) :
  Exists (fun w => Np.nonfinite w = true) a ->
  Np.nonfinite (Np.sum a) = true.
Proof.
  intros H. unfold Np.sum. apply FloatMore.add_nonfinite_r.
  now apply pairwise_sum_nonfinite.
Qed.

(** The bound on the depth of the recursion is immaterial once it covers
    the length of the array. *)
Lemma pairwise_sum_fuel (fuel1 : nat) :
  forall fuel2 a,
    (length a <= fuel1)%nat -> (length a <= fuel2)%nat ->
    Np.pairwise_sum fuel1 a = Np.pairwise_sum fuel2 a.
Proof.
  induction fuel1 as [| f1 IH]; intros [| f2] a H1 H2;
    cbn [Np.pairwise_sum];
    destruct (length a <? 8)%nat eqn:E8; try reflexivity;
    destruct (length a <=? 128)%nat eqn:E128; try reflexivity;
    apply Nat.ltb_ge in E8; apply Nat.leb_gt in E128; try lia.
  destruct (@split_lengths (length a) E128) as (Hpos & Hlt).
  f_equal; apply IH.
  all: rewrite ?length_firstn, ?length_skipn; lia.
Qed.

(** Fewer than 8 elements are added left to right. *)
Lemma sum_short (a : list float) :
  (length a < 8)%nat -> Np.sum a = 0 + fold_left PrimFloat.add a 0.
Proof.
  intros H. unfold Np.sum. apply Nat.ltb_lt in H.
  destruct (length a) as [| f] eqn:E; cbn [Np.pairwise_sum];
    rewrite E, H; reflexivity.
Qed.

End SumFacts.

Section RollMore.

Context {A : Type}.

Lemma roll_negative (d : Die A) (n : Z) (rs : Np.RandomState) :
  (n < 0)%Z -> roll d n rs = (Raise ValueError, (d, rs)).
Proof.
  intros Hn. rewrite roll_unfold.
  assert (H : Np.random_choice (die_faces d) n (die_probabilities d) rs
              = (Raise ValueError, rs)).
  { unfold Np.random_choice.
    replace (n =? 0)%Z with false by (symmetry; apply Z.eqb_neq; lia).
    destruct (length (die_faces d) =? 0)%nat eqn:E0; [reflexivity |].
    cbn [andb negb].
    destruct (negb (length (die_probabilities d) =? length (die_faces d))%nat)
      eqn:El; [reflexivity |].
    destruct (negb (Np.p_accepted (die_probabilities d))); [reflexivity |].
    destruct (Np.cumsum (die_probabilities d)) as [| c0 cs] eqn:Ec.
    - exfalso. apply Nat.eqb_neq in E0.
      pose proof (NpFacts.cumsum_length (die_probabilities d)) as Hc.
      rewrite Ec in Hc. simpl in Hc.
      apply negb_false_iff, Nat.eqb_eq in El. lia.
    - cbv zeta. replace (n <? 0)%Z with true by (symmetry; apply Z.ltb_lt; lia).
      reflexivity. }
  now rewrite H.
Qed.

Lemma rollable_no_nonfinite_weight (d : Die A) :
  Exists (fun w => Np.nonfinite w = true) (die_weights d) ->
  rollable d = false.
Proof.
  intros H. unfold rollable, die_probabilities.
  apply FloatMore.p_accepted_no_nan.
  assert (Hs : Np.nonfinite (Np.sum (die_weights d)) = true)
    by (apply SumFacts.sum_nonfinite_elt; exact H).
  unfold Np.divide. apply Exists_exists in H. destruct H as (w & Hin & Hw).
  apply Exists_exists. exists (w / Np.sum (die_weights d))%float. split.
  - apply in_map_iff. now exists w.
  - now apply FloatMore.div_nonfinite_nan.
Qed.

End RollMore.

(** X5.  [roll] with a negative number of rolls raises ValueError for
    every die, rollable or not, draws nothing and leaves the die alone. *)
Theorem roll_negative_count_raises :
  forall (A : Type) (d : Die A) (n : Z) (rs : Np.RandomState),
    (n < 0)%Z -> roll d n rs = (Raise ValueError, (d, rs)).
Proof. intros A d n rs H. now apply roll_negative. Qed.

Lemma roll_negative_count_raises_witness :
  roll fair_die (-2) tape = (Raise ValueError, (fair_die, tape)).
Proof.
  apply (@roll_negative_count_raises Z fair_die (-2)%Z tape). reflexivity.
Defined.

(** X6.  A die holding a weight that is NaN or infinite cannot be rolled,
    whatever its other weights: the sum of the weights is then NaN or
    infinite, that face's probability is NaN, and [roll] raises ValueError
    without drawing.  [change_weight] stores such weights without
    complaint, so the failure shows only at the next roll. *)
Theorem roll_nonfinite_weight_raises :
  forall (A : Type) (d : Die A) (n : Z) (rs : Np.RandomState),
    Exists (fun w => Np.nonfinite w = true) (die_weights d) ->
    rollable d = false /\
    roll d n rs = (Raise ValueError, (d, rs)).
Proof.
  intros A d n rs H.
  pose proof (rollable_no_nonfinite_weight d H) as Hr.
  split; [exact Hr | now apply roll_rejected].
Qed.

Lemma roll_nonfinite_weight_raises_witness :
  rollable infinite_die = false /\
  roll infinite_die 3 tape = (Raise ValueError, (infinite_die, tape)).
Proof.
  apply (@roll_nonfinite_weight_raises Z infinite_die 3%Z tape).
  apply Exists_cons_tl, Exists_cons_hd. vm_compute. reflexivity.
Defined.

(** X7.  A die with a single face rolls that face every time, whatever
    its weight, as long as the weight is a finite non-zero number: the
    probability is the weight divided by itself, exactly 1, even for a
    negative weight. *)
Theorem roll_single_face :
  forall (A : Type) (f : A) (w : float) (n : Z) (rs : Np.RandomState),
    Np.nonfinite w = false -> (w =? 0)%float = false -> (0 <= n)%Z ->
    die_probabilities (mkDie [(f, w)]) = [1%float] /\
    exists rs',
      roll (mkDie [(f, w)]) n rs
        = (Ok (repeat f (Z.to_nat n)), (mkDie [(f, w)], rs')).
Proof.
  intros A f w n rs Hfin Hnz Hn.
  destruct (FloatMore.finite_nonzero Hfin Hnz) as (s & m & e & Hw).
  assert (Hp : die_probabilities (mkDie [(f, w)]) = [1%float]).
  { unfold die_probabilities, die_weights, Np.divide. cbn [map snd _df].
    rewrite (@SumFacts.sum_short [w]) by (simpl; lia). cbn [fold_left].
    rewrite !(@FloatMore.add_zero_finite w s m e Hw).
    now rewrite (@FloatMore.div_self_one w s m e Hw). }
  split; [exact Hp |].
  assert (Hr : rollable (mkDie [(f, w)]) = true)
    by (unfold rollable; rewrite Hp; vm_compute; reflexivity).
  destruct (roll_ok (mkDie [(f, w)]) rs Hr Hn) as (l & Hl & Hlen & Hin).
  exists (snd (Np.random_sample (Z.to_nat n) rs)). rewrite Hl.
  repeat f_equal. rewrite <- Hlen. clear - Hin.
  induction l as [| x l IH]; [reflexivity |].
  inversion Hin as [| ? ? Hx Hl]; subst. simpl in Hx.
  destruct Hx as [<- | []]. simpl. f_equal. now apply IH.
Qed.

Lemma roll_single_face_witness :
  die_probabilities lone_die = [1%float] /\
  exists rs',
    roll lone_die 4 tape = (Ok [7; 7; 7; 7]%Z, (lone_die, rs')).
Proof.
  apply (@roll_single_face Z 7%Z (-3)%float 4%Z tape).
  - vm_compute. reflexivity.
  - vm_compute. reflexivity.
  - vm_compute. discriminate.
Defined.

Module SamplingFacts.

Local Open Scope float_scope.

(** Adding a zero to a running sum does not move the samples it
    separates. *)
Lemma less_add_zero (c z T u : float) (b : bool) :
  Prim2SF z = S754_zero b ->
  Np.less u ((c + z) / T) = Np.less u (c / T).
Proof.
  intros Hz. unfold Np.less.
  rewrite !FloatFacts.is_nan_spec, !ltb_spec, !div_spec, add_spec, Hz.
  unfold SF64add, SF64div.
  destruct (Prim2SF c) as [sc | sc | | sc mc ec]; try reflexivity.
  destruct sc, b; cbn [SFadd]; destruct (Prim2SF T) as [st | st | | st mt et];
    cbn [SFdiv]; try reflexivity;
    destruct (Prim2SF u) as [su | su | | su mu eu]; destruct st; reflexivity.
Qed.

(** No sample of [0, 1) sorts before a zero. *)
Lemma less_zero (u z T : float) (b : bool) :
  (0 <=? u) = true -> (0 <? T) = true -> Prim2SF z = S754_zero b ->
  Np.less u (z / T) = false.
Proof.
  intros Hu HT Hz. unfold Np.less.
  rewrite FloatFacts.is_nan_spec, ltb_spec, div_spec, Hz.
  rewrite leb_spec in Hu. rewrite ltb_spec in HT.
  change (Prim2SF 0) with (S754_zero false) in *.
  unfold SF64div.
  destruct (Prim2SF T) as [st | st | | st mt et]; try discriminate HT;
    destruct st; try discriminate HT; cbn [SFdiv];
    destruct (Prim2SF u) as [su | su | | su mu eu]; try discriminate Hu;
    try destruct su; try discriminate Hu; destruct b; reflexivity.
Qed.

Lemma div_zero_class (w s : float) (b : bool) :
  Prim2SF w = S754_zero b ->
  Prim2SF (w / s) = S754_nan \/ exists c, Prim2SF (w / s) = S754_zero c.
Proof.
  intros H. rewrite div_spec, H. destruct (Prim2SF s); cbn; eauto.
Qed.

Local Open Scope nat_scope.

(** Where the binary search stops: the key does not sort before the cell
    on the left of the result and sorts before the cell at the result. *)
Lemma binsearch_right_local (fuel : nat) :
  forall arr key lo hi,
    hi - lo <= fuel -> lo <= hi -> hi <= length arr ->
    (lo = 0 \/ Np.less key (nth (lo - 1) arr nan) = false) ->
    (hi = length arr \/ Np.less key (nth hi arr nan) = true) ->
    (Np.binsearch_right fuel arr key lo hi = 0 \/
     Np.less key (nth (Np.binsearch_right fuel arr key lo hi - 1) arr nan)
       = false) /\
    (Np.binsearch_right fuel arr key lo hi = length arr \/
     Np.less key (nth (Np.binsearch_right fuel arr key lo hi) arr nan) = true).
Proof.
  induction fuel as [| f IH]; intros arr key lo hi Hf Hlh Hh Hlo Hhi;
    cbn [Np.binsearch_right].
  - assert (lo = hi) by lia. subst. auto.
  - destruct (lo <? hi) eqn:E.
    + apply Nat.ltb_lt in E.
      assert (Hhalf : (hi - lo) / 2 < hi - lo) by (apply Nat.div_lt; lia).
      destruct (Np.less key (nth (lo + (hi - lo) / 2) arr nan)) eqn:Hm.
      * apply IH; auto; lia.
      * apply IH; auto; try lia.
        right. now replace (lo + (hi - lo) / 2 + 1 - 1) with (lo + (hi - lo) / 2)
          by lia.
    + apply Nat.ltb_ge in E. assert (lo = hi) by lia. subst. auto.
Qed.

Lemma searchsorted_right_local (arr : list float) (key : float) :
  (Np.searchsorted_right arr key = 0 \/
   Np.less key (nth (Np.searchsorted_right arr key - 1) arr nan) = false) /\
  (Np.searchsorted_right arr key = length arr \/
   Np.less key (nth (Np.searchsorted_right arr key) arr nan) = true).
Proof.
  unfold Np.searchsorted_right. apply binsearch_right_local; auto; lia.
Qed.

Lemma cumsum_from_nth (p : list float) :
  forall acc i d,
    i < length p ->
    nth i (Np.cumsum_from acc p) d =
    (match i with
     | O => acc
     | S i' => nth i' (Np.cumsum_from acc p) d
     end + nth i p d)%float.
Proof.
  induction p as [| x p IH]; intros acc i d Hi; simpl in Hi; [lia |].
  destruct i as [| i]; [reflexivity |].
  cbn [Np.cumsum_from nth]. rewrite IH by lia.
  destruct i; reflexivity.
Qed.

Lemma cumsum_nth_succ (p : list float) (i : nat) (d : float) :
  S i < length p ->
  nth (S i) (Np.cumsum p) d = (nth i (Np.cumsum p) d + nth (S i) p d)%float.
Proof.
  destruct p as [| x p]; simpl; [lia |]. intros Hi.
  rewrite cumsum_from_nth by lia. destruct i; reflexivity.
Qed.

Lemma cumsum_nth_zero (p : list float) (d : float) :
  nth 0 (Np.cumsum p) d = nth 0 p d.
Proof. destruct p; reflexivity. Qed.

Lemma nth_map_in_range {X Y : Type} (f : X -> Y) (l : list X) (i : nat)
      (dx : X) (dy : Y) :
  i < length l -> nth i (map f l) dy = f (nth i l dx).
Proof.
  intros Hi. rewrite (nth_indep _ dy (f dx)) by now rewrite length_map.
  apply map_nth.
Qed.

(** The search never lands on a cell whose probability is a zero. *)
Lemma searchsorted_skips_zero (p : list float) (T u : float) (j : nat)
      (b : bool) :
  j < length p ->
  Prim2SF (nth j p nan) = S754_zero b ->
  (0 <=? u)%float = true -> (0 <? T)%float = true ->
  Np.searchsorted_right (Np.divide (Np.cumsum p) T) u <> j.
Proof.
  intros Hj Hz Hu HT E.
  destruct (searchsorted_right_local (Np.divide (Np.cumsum p) T) u) as (Hl & Hr).
  rewrite E in Hl, Hr.
  assert (Hlen : length (Np.divide (Np.cumsum p) T) = length p)
    by (unfold Np.divide; now rewrite length_map, NpFacts.cumsum_length).
  assert (Hcell : forall i, i < length p ->
             nth i (Np.divide (Np.cumsum p) T) nan
             = (nth i (Np.cumsum p) nan / T)%float).
  { intros i Hi. unfold Np.divide.
    apply (nth_map_in_range (fun x => (x / T)%float)).
    now rewrite NpFacts.cumsum_length. }
  destruct Hr as [Hr | Hr]; [lia |].
  rewrite Hcell in Hr by assumption.
  destruct j as [| i].
  - rewrite cumsum_nth_zero in Hr.
    rewrite (@less_zero u (nth 0 p nan) T b Hu HT Hz) in Hr. discriminate.
  - destruct Hl as [Hl | Hl]; [discriminate |].
    replace (S i - 1) with i in Hl by lia.
    rewrite Hcell in Hl by lia.
    rewrite cumsum_nth_succ in Hr by assumption.
    rewrite (@less_add_zero (nth i (Np.cumsum p) nan) (nth (S i) p nan) T u b Hz)
      in Hr.
    congruence.
Qed.

(** What indexing returns comes from one of the indices. *)
Lemma take_In {X : Type} (a : list X) (idx : list nat) :
  forall l x,
    Np.take a idx = Ok l -> In x l ->
    exists i, In i idx /\ nth_error a i = Some x.
Proof.
  induction idx as [| i idx IH]; intros l x Hl Hx; simpl in Hl.
  - apply Ok_inj in Hl. subst. contradiction.
  - destruct (nth_error a i) as [y |] eqn:Ey; [| discriminate].
    destruct (Np.take a idx) as [xs | e]; [| discriminate].
    apply Ok_inj in Hl. subst l. destruct Hx as [<- | Hx].
    + exists i. split; [now left | exact Ey].
    + destruct (IH xs x eq_refl Hx) as (i' & Hi' & Hn).
      exists i'. split; [now right | exact Hn].
Qed.

Lemma random_sample_ge_zero (size : nat) (rs : Np.RandomState) :
  Forall (fun u => (0 <=? u)%float = true) (fst (Np.random_sample size rs)).
Proof.
  unfold Np.random_sample. simpl. apply Forall_forall. intros u Hu.
  apply in_map_iff in Hu. destruct Hu as (i & <- & _).
  destruct (rs i) as [v Hv]. simpl.
  apply andb_prop in Hv. tauto.
Qed.

(** [choice] past its checks: the outcomes are the cells of [a] at the
    indices the samples select in the normalised running sums. *)
Lemma random_choice_sampled {X : Type} (a : list X) (size : Z)
      (p : list float) (rs : Np.RandomState) :
  a <> [] -> length p = length a -> Np.p_accepted p = true -> (0 <= size)%Z ->
  Np.random_choice a size p rs =
  (Np.take a (map (Np.searchsorted_right
                     (Np.divide (Np.cumsum p) (last (Np.cumsum p) 0%float)))
                  (fst (Np.random_sample (Z.to_nat size) rs))),
   snd (Np.random_sample (Z.to_nat size) rs)).
Proof.
  intros Ha Hlen Hacc Hsize. unfold Np.random_choice.
  assert (Hpos : 0 < length a) by (destruct a; [congruence | simpl; lia]).
  replace (length a =? 0) with false by (symmetry; apply Nat.eqb_neq; lia).
  rewrite Hlen, Nat.eqb_refl, Hacc. cbn [andb negb].
  destruct (Np.cumsum p) as [| c0 cs] eqn:Ec.
  { pose proof (NpFacts.cumsum_length p) as Hc. rewrite Ec in Hc.
    simpl in Hc. lia. }
  replace (size <? 0)%Z with false by (symmetry; apply Z.ltb_ge; lia).
  cbv zeta. rewrite NpFacts.last_cons.
  destruct (Np.random_sample (Z.to_nat size) rs). reflexivity.
Qed.

End SamplingFacts.

Section ZeroWeight.

Context {A : Type} {FA : Face A}.

Lemma weight_at_position (df : list (A * float)) (f : A) (w : float) :
  weight_at f df = Some w -> exists j, nth_error df j = Some (f, w).
Proof.
  induction df as [| [g x] df IH]; simpl; [discriminate |].
  destruct (face_eqb g f) eqn:E.
  - intros H. inversion H; subst. apply face_eqb_eq in E. subst.
    now exists 0%nat.
  - intros H. destruct (IH H) as (j & Hj). now exists (S j).
Qed.

Lemma roll_avoids_zero_weight (d : Die A) (f : A) (w : float) (n : Z)
      (rs : Np.RandomState) :
  NoDup (die_faces d) ->
  weight_at f (Die_show d) = Some w -> (w =? 0)%float = true ->
  rollable d = true -> (0 <? die_total d)%float = true -> (0 <= n)%Z ->
  forall l st, roll d n rs = (Ok l, st) -> ~ In f l.
Proof.
  intros Hnd Hw Hz Hr HT Hn l st Hroll Hin.
  destruct (@weight_at_position _ f w Hw) as (j & Hj).
  unfold Die_show in Hj.
  assert (Hjlen : (j < length (_df d))%nat)
    by (apply nth_error_Some; congruence).
  assert (Hfj : nth_error (die_faces d) j = Some f)
    by (unfold die_faces; now rewrite nth_error_map, Hj).
  assert (Hwj : nth j (die_weights d) nan = w).
  { unfold die_weights. apply nth_error_nth.
    now rewrite nth_error_map, Hj. }
  destruct (FloatFacts.eqb_zero_inv Hz) as (b & Hb).
  set (p := die_probabilities d) in *.
  assert (Hplen : length p = length (_df d))
    by (unfold p, die_probabilities, Np.divide, die_weights;
        now rewrite !length_map).
  assert (Hpj : nth j p nan = (w / Np.sum (die_weights d))%float).
  { unfold p, die_probabilities, Np.divide.
    rewrite (SamplingFacts.nth_map_in_range
               (fun x => (x / Np.sum (die_weights d))%float) _ nan nan).
    - now rewrite Hwj.
    - unfold die_weights. now rewrite length_map. }
  assert (Hzero : exists c, Prim2SF (nth j p nan) = S754_zero c).
  { rewrite Hpj.
    destruct (@SamplingFacts.div_zero_class w (Np.sum (die_weights d)) b Hb)
      as [Hnan | Hc]; [| exact Hc].
    exfalso. unfold rollable in Hr. fold p in Hr.
    rewrite FloatMore.p_accepted_no_nan in Hr; [discriminate |].
    apply Exists_exists. exists (nth j p nan). split.
    - apply nth_In. lia.
    - now rewrite Hpj. }
  destruct Hzero as (c & Hc).
  rewrite roll_unfold in Hroll. fold p in Hroll.
  rewrite SamplingFacts.random_choice_sampled in Hroll; auto.
  - simpl in Hroll. inversion Hroll as [[Htake Hst]]. clear Hroll Hst.
    destruct (@SamplingFacts.take_In A _ _ l f Htake Hin) as (i & Hi & Hni).
    assert (i = j).
    { apply (proj1 (NoDup_nth_error (die_faces d)) Hnd).
      - apply nth_error_Some. congruence.
      - congruence. }
    subst i. apply in_map_iff in Hi. destruct Hi as (u & Hu & Hus).
    pose proof (SamplingFacts.random_sample_ge_zero (Z.to_nat n) rs) as Hge.
    rewrite Forall_forall in Hge.
    apply (@SamplingFacts.searchsorted_skips_zero
             p (last (Np.cumsum p) 0%float) u j c); auto.
    lia.
  - now apply rollable_faces.
  - unfold die_faces. now rewrite Hplen, length_map.
Qed.

End ZeroWeight.

(** X8.  A face whose weight is zero never comes up.  On a die with
    distinct faces whose probabilities the sampler accepts and add up to a
    positive total, [roll(n)] returns [n] outcomes none of which is a face
    of weight zero, whatever the generator yields. *)
Theorem roll_never_zero_weight_face :
  forall (A : Type) (FA : Face A) (d : Die A) (f : A) (w : float) (n : Z)
         (rs : Np.RandomState),
    NoDup (die_faces d) ->
    weight_at f (Die_show d) = Some w -> (w =? 0)%float = true ->
    rollable d = true -> (0 <? die_total d)%float = true -> (0 <= n)%Z ->
    exists (l : list A) (rs' : Np.RandomState),
      roll d n rs = (Ok l, (d, rs')) /\
      length l = Z.to_nat n /\
      ~ In f l.
Proof.
  intros A FA d f w n rs Hnd Hw Hz Hr HT Hn.
  destruct (roll_ok d rs Hr Hn) as (l & Hl & Hlen & _).
  exists l, (snd (Np.random_sample (Z.to_nat n) rs)).
  repeat split; auto.
  eapply roll_avoids_zero_weight; eauto.
Qed.

Lemma roll_never_zero_weight_face_witness :
  exists (l : list Z) (rs' : Np.RandomState),
    roll loaded_die 6 tape = (Ok l, (loaded_die, rs')) /\
    length l = 6%nat /\
    ~ In 1%Z l.
Proof.
  apply (@roll_never_zero_weight_face Z Face_Z loaded_die 1%Z 0%float 6%Z tape).
  - repeat constructor; simpl; intuition discriminate.
  - reflexivity.
  - reflexivity.
  - vm_compute. reflexivity.
  - vm_compute. reflexivity.
  - vm_compute. discriminate.
Defined.

Section RollCompose.

Context {A : Type}.

Lemma take_app (a : list A) (i1 : list nat) :
  forall i2 l1 l2,
    Np.take a i1 = Ok l1 -> Np.take a i2 = Ok l2 ->
    Np.take a (i1 ++ i2) = Ok (l1 ++ l2).
Proof.
  induction i1 as [| i i1 IH]; intros i2 l1 l2 H1 H2; simpl in *.
  - apply Ok_inj in H1. now subst.
  - destruct (nth_error a i) as [x |]; [| discriminate].
    destruct (Np.take a i1) as [xs | e] eqn:E; [| discriminate].
    apply Ok_inj in H1. subst l1.
    now rewrite (IH i2 xs l2 eq_refl H2).
Qed.

Lemma seq_offset (n m : nat) : seq n m = map (fun i => n + i)%nat (seq 0 m).
Proof.
  induction n as [| n IH].
  - simpl. now rewrite map_id.
  - rewrite <- seq_shift, IH, map_map. reflexivity.
Qed.

(** Drawing [n] and then [m] samples yields what drawing [n + m] at once
    yields. *)
Lemma random_sample_app (n m : nat) (rs : Np.RandomState) :
  fst (Np.random_sample (n + m) rs) =
  fst (Np.random_sample n rs)
  ++ fst (Np.random_sample m (snd (Np.random_sample n rs))).
Proof.
  unfold Np.random_sample. simpl.
  rewrite seq_app, map_app. f_equal. simpl.
  now rewrite seq_offset, map_map.
Qed.

End RollCompose.

(** X9.  Rolls continue one another.  On a die the sampler accepts,
    rolling [n] times and then [m] times (from the generator as the first
    call left it) returns, one after the other, the outcomes that a single
    roll of [n + m] returns. *)
Theorem roll_then_roll :
  forall (A : Type) (d : Die A) (n m : Z) (rs : Np.RandomState),
    rollable d = true -> (0 <= n)%Z -> (0 <= m)%Z ->
    exists (l1 l2 : list A) (rs1 rs2 : Np.RandomState),
      roll d n rs = (Ok l1, (d, rs1)) /\
      roll d m rs1 = (Ok l2, (d, rs2)) /\
      fst (roll d (n + m) rs) = Ok (l1 ++ l2).
Proof.
  intros A d n m rs Hr Hn Hm.
  assert (Hs : forall k r, (0 <= k)%Z ->
             roll d k r =
             (Np.take (die_faces d)
                (map (Np.searchsorted_right
                        (Np.divide (Np.cumsum (die_probabilities d))
                                   (last (Np.cumsum (die_probabilities d)) 0%float)))
                     (fst (Np.random_sample (Z.to_nat k) r))),
              (d, snd (Np.random_sample (Z.to_nat k) r)))).
  { intros k r Hk. rewrite roll_unfold.
    rewrite SamplingFacts.random_choice_sampled; auto.
    - now apply rollable_faces.
    - unfold die_probabilities, Np.divide, die_weights, die_faces.
      now rewrite !length_map. }
  destruct (roll_ok d rs Hr Hn) as (l1 & Hl1 & _).
  destruct (roll_ok d (snd (Np.random_sample (Z.to_nat n) rs)) Hr Hm)
    as (l2 & Hl2 & _).
  exists l1, l2, (snd (Np.random_sample (Z.to_nat n) rs)),
         (snd (Np.random_sample (Z.to_nat m)
                 (snd (Np.random_sample (Z.to_nat n) rs)))).
  split; [exact Hl1 |]. split; [exact Hl2 |].
  rewrite Hs in Hl1, Hl2 by assumption.
  rewrite Hs by lia. cbn [fst].
  rewrite Z2Nat.inj_add, random_sample_app, map_app by assumption.
  apply take_app.
  - now inversion Hl1.
  - now inversion Hl2.
Qed.

Lemma roll_then_roll_witness :
  exists (l1 l2 : list Z) (rs1 rs2 : Np.RandomState),
    roll fair_die 2 tape = (Ok l1, (fair_die, rs1)) /\
    roll fair_die 3 rs1 = (Ok l2, (fair_die, rs2)) /\
    fst (roll fair_die (2 + 3) tape) = Ok (l1 ++ l2).
Proof.
  apply (@roll_then_roll Z fair_die 2%Z 3%Z tape).
  - vm_compute. reflexivity.
  - vm_compute. discriminate.
  - vm_compute. discriminate.
Defined.

(** ** Game: playing *)

Section PlayMore.

Context {A : Type}.

Lemma heads_cells (m : nat) (cols : list (list A)) :
  Forall (fun c => length c = S m) cols ->
  Forall2 (fun c x => In x c) cols (heads cols).
Proof.
  induction 1 as [| c cols Hc _ IH]; [constructor |].
  destruct c as [| x c]; [discriminate |].
  unfold heads in *. simpl. constructor; [now left | exact IH].
Qed.

Lemma tails_cells (cols : list (list A)) (row : list A) :
  Forall2 (fun c x => In x c) (tails cols) row ->
  Forall2 (fun c x => In x c) cols row.
Proof.
  revert row. induction cols as [| c cols IH]; intros row H; simpl in H.
  - inversion H. constructor.
  - inversion H as [| ? ? ? ? Hx Hrest]; subst.
    constructor; [| now apply IH].
    destruct c; simpl in Hx; [contradiction | now right].
Qed.

(** Every cell of a row comes from the column it stands in. *)
Lemma rows_of_cells (n : nat) :
  forall cols : list (list A),
    Forall (fun c => length c = n) cols ->
    Forall (fun row => Forall2 (fun c x => In x c) cols row) (rows_of n cols).
Proof.
  induction n as [| m IH]; intros cols H; simpl; [constructor |].
  constructor; [now apply heads_cells with m |].
  specialize (IH (tails cols) (tails_length H)).
  rewrite Forall_forall in IH |- *. intros row Hrow.
  apply tails_cells. now apply IH.
Qed.

Lemma cells_of_dice (ds : list (Die A)) (cols : list (list A)) :
  Forall2 (fun d c => Forall (fun x => In x (die_faces d)) c) ds cols ->
  forall row,
    Forall2 (fun c x => In x c) cols row ->
    Forall2 (fun d x => In x (die_faces d)) ds row.
Proof.
  induction 1 as [| d c ds cols Hdc _ IH]; intros row Hrow.
  - inversion Hrow. constructor.
  - inversion Hrow as [| ? x ? row' Hx Hrest]; subst.
    constructor; [| now apply IH].
    rewrite Forall_forall in Hdc. now apply Hdc.
Qed.

Lemma play_negative (g : Game A) (n : Z) (rs : Np.RandomState) :
  (n < 0)%Z -> dice g <> [] ->
  play g n rs = (Raise ValueError, (g, rs)).
Proof.
  intros Hn Hd. unfold play.
  destruct g as [[| d ds] r]; simpl in *; [congruence |].
  now rewrite (roll_negative d rs Hn).
Qed.

End PlayMore.

(** X10.  What [play] stores are faces of the dice, die by die: after a
    [play(n)] over dice the sampler accepts, every row of the table has one
    cell per die and the cell in the column of a die is one of that die's
    faces. *)
Theorem play_cells_are_faces :
  forall (A : Type) (g : Game A) (n : Z) (rs : Np.RandomState),
    (0 <= n)%Z ->
    Forall (fun d => rollable d = true) (dice g) ->
    exists (g' : Game A) (rs' : Np.RandomState) (wide : DataFrame A),
      play g n rs = (Ok tt, (g', rs')) /\
      show g' "wide" = Ok (Some wide) /\
      Forall (fun row => Forall2 (fun d x => In x (die_faces d)) (dice g) row)
             (values wide).
Proof.
  intros A g n rs Hn Hd.
  destruct (play_ok g rs Hn Hd) as (cols & df & rs' & Hplay & Hdf & Hk & Hlen & Hf).
  exists (mkGame (dice g) (Some (set_index_name df "roll_number"))), rs',
         (set_index_name df "roll_number").
  split; [exact Hplay |]. split; [reflexivity |].
  cbn [set_index_name values].
  destruct cols as [| c cols].
  - simpl in Hdf. apply Ok_inj in Hdf. subst df. constructor.
  - rewrite (pd_DataFrame_uniform Hlen) in Hdf. apply Ok_inj in Hdf. subst df.
    cbn [values].
    pose proof (rows_of_cells Hlen) as Hrows.
    rewrite Forall_forall in Hrows |- *. intros row Hrow.
    eapply cells_of_dice; eauto.
Qed.

Lemma play_cells_are_faces_witness :
  exists (g' : Game Z) (rs' : Np.RandomState) (wide : DataFrame Z),
    play fresh_game 3 tape = (Ok tt, (g', rs')) /\
    show g' "wide" = Ok (Some wide) /\
    Forall (fun row => Forall2 (fun d x => In x (die_faces d))
                               (dice fresh_game) row)
           (values wide).
Proof.
  apply (@play_cells_are_faces Z fresh_game 3%Z tape).
  - vm_compute. discriminate.
  - repeat constructor.
Defined.

(** X11.  A negative number of rolls.  Over at least one die [play]
    raises ValueError at the first die, draws nothing and leaves the game
    as it was.  Over no dice the loop never runs: [play] succeeds for every
    count, a negative one included, and stores the empty table. *)
Theorem play_negative_count :
  forall (A : Type) (g : Game A) (n : Z) (rs : Np.RandomState),
    (n < 0)%Z ->
    (dice g <> [] -> play g n rs = (Raise ValueError, (g, rs))) /\
    (dice g = [] ->
     play g n rs =
       (Ok tt, (mkGame [] (Some (mkDataFrame [Some "roll_number"%string] [] [] [])),
                rs))).
Proof.
  intros A g n rs Hn. split.
  - intros Hd. now apply play_negative.
  - intros Hd. unfold play. rewrite Hd. reflexivity.
Qed.

Lemma play_negative_count_witness :
  play stale_game (-1) tape = (Raise ValueError, (stale_game, tape)) /\
  play empty_game (-1) tape =
    (Ok tt, (mkGame [] (Some (mkDataFrame [Some "roll_number"%string] [] [] [])),
             tape)).
Proof.
  destruct (@play_negative_count Z stale_game (-1)%Z tape eq_refl) as (H1 & _).
  destruct (@play_negative_count Z empty_game (-1)%Z tape eq_refl) as (_ & H2).
  split; [apply H1; discriminate | apply H2; reflexivity].
Defined.

(** ** Analyzer: the statistics *)

Section TallyMore.

Variable K : Type.
Variable eqb : K -> K -> bool.
Hypothesis eqb_eq : forall x y, eqb x y = true <-> x = y.

Lemma list_sum_indicator_gen (x : K) (U : list K) :
  NoDup U -> In x U ->
  list_sum (map (fun v => if eqb x v then 1 else 0) U) = 1.
Proof.
  induction 1 as [| u U Hnin Hnd IH]; simpl; [tauto |].
  intros [-> | Hin].
  - rewrite (proj2 (eqb_eq x x) eq_refl).
    rewrite (map_ext_in _ (fun _ => 0)), list_sum_map_zero; [reflexivity |].
    intros v Hv. destruct (eqb x v) eqn:E; [| reflexivity].
    apply eqb_eq in E. congruence.
  - destruct (eqb x u) eqn:E.
    + apply eqb_eq in E. congruence.
    + now rewrite IH.
Qed.

(** The counts of the distinct values add up to the number of entries. *)
Lemma counts_sum (s : list K) :
  list_sum (map (fun k => count eqb k s) (unique eqb s)) = length s.
Proof.
  assert (H : forall U l, NoDup U -> (forall x, In x l -> In x U) ->
                          list_sum (map (fun k => count eqb k l) U) = length l).
  { intros U l Hnd. induction l as [| x l IH]; intros Hcov.
    - apply list_sum_map_zero.
    - assert (Hext : map (fun k => count eqb k (x :: l)) U =
                     map (fun k => (if eqb x k then 1 else 0) + count eqb k l) U).
      { apply map_ext. intros k. unfold count. simpl. now destruct (eqb x k). }
      rewrite Hext, list_sum_map_add.
      rewrite list_sum_indicator_gen by (auto; apply Hcov; now left).
      rewrite IH by (intros y Hy; apply Hcov; now right).
      reflexivity. }
  apply H.
  - now apply unique_NoDup.
  - intros x Hx. now apply unique_In.
Qed.

(** A value is counted at least as often after a map as before. *)
Lemma count_map_le (K' : Type) (eqb' : K' -> K' -> bool)
      (eqb'_eq : forall x y, eqb' x y = true <-> x = y)
      (f : K -> K') (x : K) (s : list K) :
  count eqb x s <= count eqb' (f x) (map f s).
Proof.
  unfold count. induction s as [| y s IH]; simpl; [lia |].
  destruct (eqb y x) eqn:E.
  - apply eqb_eq in E. subst y.
    rewrite (proj2 (eqb'_eq (f x) (f x)) eq_refl). simpl. lia.
  - destruct (eqb' (f y) (f x)); simpl; lia.
Qed.

(** Mapping cannot create distinct values. *)
Lemma unique_map_length (K' : Type) (eqb' : K' -> K' -> bool)
      (eqb'_eq : forall x y, eqb' x y = true <-> x = y)
      (f : K -> K') (s : list K) :
  length (unique eqb' (map f s)) <= length (unique eqb s).
Proof.
  rewrite <- (length_map f (unique eqb s)).
  apply NoDup_incl_length; [now apply unique_NoDup |].
  intros y Hy. apply (proj1 (@unique_In _ _ eqb'_eq (map f s) y)) in Hy.
  apply in_map_iff in Hy. destruct Hy as (x & <- & Hx).
  apply in_map. now apply unique_In.
Qed.

End TallyMore.

Section StatsMore.

Context {A : Type} {FA : Face A}.

Lemma filter_nil_iff {X : Type} (f : X -> bool) (l : list X) :
  filter f l = [] <-> forall x, In x l -> f x = false.
Proof.
  induction l as [| y l IH]; simpl; [tauto |].
  destruct (f y) eqn:E.
  - split; [discriminate |]. intros H. specialize (H y (or_introl eq_refl)).
    congruence.
  - rewrite IH. split.
    + intros H x [<- | Hx]; auto.
    + intros H x Hx. apply H. now right.
Qed.

(** One distinct value: all cells equal. *)
Lemma unique_one_constant (row : list A) :
  (length (unique face_eqb row) =? 1)%nat = true <-> constant_row row.
Proof.
  rewrite Nat.eqb_eq. unfold constant_row. destruct row as [| x t]; simpl.
  - split; [discriminate | intros (y & H & _); congruence].
  - split.
    + intros H. exists x. split; [discriminate |].
      assert (Hnil : filter (fun y => negb (face_eqb y x)) (unique face_eqb t) = [])
        by (destruct (filter _ _); [reflexivity | discriminate]).
      intros y [<- | Hy]; [reflexivity |].
      apply (proj2 (@unique_In _ _ face_eqb_eq t y)) in Hy.
      pose proof (proj1 (filter_nil_iff _ _) Hnil y Hy) as E. cbv beta in E.
      apply negb_false_iff, face_eqb_eq in E. exact E.
    + intros (z & _ & Hall).
      assert (Hx : x = z) by (apply Hall; now left). subst z.
      replace (filter (fun y => negb (face_eqb y x)) (unique face_eqb t))
        with (@nil A); [reflexivity |].
      symmetry. apply filter_nil_iff. intros y Hy.
      apply (proj1 (@unique_In _ _ face_eqb_eq t y)) in Hy.
      rewrite (Hall y (or_intror Hy)), face_eqb_refl. reflexivity.
Qed.

Lemma filter_id_map {X : Type} (g : X -> bool) (l : list X) :
  length (filter (fun b : bool => b) (map g l)) = length (filter g l).
Proof.
  induction l as [| x l IH]; simpl; [reflexivity |].
  destruct (g x); simpl; now rewrite IH.
Qed.

Lemma list_sum_perm (l l' : list nat) :
  Permutation l l' -> list_sum l = list_sum l'.
Proof. induction 1; simpl; lia. Qed.

Lemma value_counts_total (s : list (list A)) :
  list_sum (map snd (value_counts s)) = length s.
Proof.
  unfold value_counts.
  rewrite (list_sum_perm (Permutation_map snd (sort_counts_perm (tally s)))).
  unfold tally. rewrite map_map. simpl.
  apply (@counts_sum _ _ tuple_eqb_eq).
Qed.

Lemma value_counts_length (s : list (list A)) :
  length (value_counts s) = length (unique tuple_eqb s).
Proof.
  unfold value_counts.
  rewrite (Permutation_length (sort_counts_perm (tally s))).
  unfold tally. now rewrite length_map.
Qed.

End StatsMore.

(** X12.  [jackpot] returns the number of rows all of whose cells hold
    one value, however such rows are recognised, and stores it on the
    analyzer.  It is at most the number of rows, equals it exactly when every
    row is constant (for instance always over a single die), and is 0
    exactly when no row is. *)
Theorem jackpot_counts_constant_rows :
  forall (A : Type) (FA : Face A) (a : Analyzer A) (df : DataFrame A),
    _df_results a = Some df ->
    exists (c : nat) (a' : Analyzer A),
      jackpot a = (Ok c, a') /\
      jackpot_count a' = Some c /\
      _df_results a' = Some df /\
      (forall is_constant : list A -> bool,
          (forall row, is_constant row = true <-> constant_row row) ->
          c = length (filter is_constant (values df))) /\
      (c <= length (values df))%nat /\
      (c = length (values df) <-> Forall constant_row (values df)) /\
      (c = 0%nat <-> Forall (fun row => ~ constant_row row) (values df)) /\
      (Forall (fun row => length row = 1%nat) (values df) ->
       c = length (values df)).
Proof.
  intros A FA a df Hdf. unfold jackpot. rewrite Hdf.
  eexists _, _. split; [reflexivity |].
  cbn [jackpot_count _df_results]. split; [reflexivity |].
  split; [reflexivity |].
  unfold apply_rows. rewrite filter_id_map.
  set (g := fun x : list A => (length (unique face_eqb x) =? 1)%nat).
  assert (Hg : forall row, g row = true <-> constant_row row)
    by (intros row; apply unique_one_constant).
  assert (Hfull : length (filter g (values df)) = length (values df)
                  <-> Forall constant_row (values df)).
  { rewrite Forall_forall. split.
    - intros H row Hrow. apply Hg. now apply (filter_length_all g _ H).
    - intros H. rewrite filter_all; [reflexivity |].
      intros row Hrow. apply Hg. now apply H. }
  split; [| split; [| split; [| split]]].
  - intros f Hf. f_equal. apply filter_ext. intros row.
    destruct (f row) eqn:E.
    + apply Hg, Hf, E.
    + destruct (g row) eqn:E'; [| reflexivity].
      apply Hg, Hf in E'. congruence.
  - apply filter_length_le.
  - exact Hfull.
  - rewrite length_zero_iff_nil, filter_nil_iff, Forall_forall.
    split; intros H row Hrow.
    + intros Hc. apply Hg in Hc. rewrite (H row Hrow) in Hc. discriminate.
    + destruct (g row) eqn:E; [| reflexivity].
      apply Hg in E. exfalso. now apply (H row Hrow).
  - intros H. apply Hfull. rewrite Forall_forall in H |- *.
    intros row Hrow. specialize (H row Hrow).
    destruct row as [| x [| y t]]; simpl in H; try discriminate.
    exists x. split; [discriminate |]. intros y [<- | []]. reflexivity.
Qed.

Lemma jackpot_counts_constant_rows_witness :
  exists (c : nat) (a' : Analyzer Z),
    jackpot (analyzer_of table_jackpots) = (Ok c, a') /\
    jackpot_count a' = Some c /\
    _df_results a' = Some table_jackpots /\
    (forall is_constant : list Z -> bool,
        (forall row, is_constant row = true <-> constant_row row) ->
        c = length (filter is_constant (values table_jackpots))) /\
    (c <= 3)%nat /\
    (c = 3%nat <-> Forall constant_row (values table_jackpots)) /\
    (c = 0%nat <-> Forall (fun row => ~ constant_row row) (values table_jackpots)) /\
    (Forall (fun row => length row = 1%nat) (values table_jackpots) ->
     c = 3%nat).
Proof.
  exact (@jackpot_counts_constant_rows Z Face_Z (analyzer_of table_jackpots)
           table_jackpots eq_refl).
Defined.

Section KeysMore.

Context {A : Type} {FA : Face A}.

Lemma unique_tuples_length_le (s : list (list A)) :
  length (unique tuple_eqb s) <= length s.
Proof.
  apply NoDup_incl_length; [apply (@unique_NoDup _ _ tuple_eqb_eq) |].
  intros k Hk. exact (proj1 (@unique_In _ _ tuple_eqb_eq s k) Hk).
Qed.

Lemma value_counts_key (s : list (list A)) (k : list A) (c : nat) :
  In (k, c) (value_counts s) -> In k s.
Proof.
  intros H. apply value_counts_In in H. destruct H as (-> & Hpos).
  exact (proj1 (@count_pos _ _ tuple_eqb_eq s k) Hpos).
Qed.

Lemma value_counts_of_row (s : list (list A)) (k : list A) :
  In k s -> In (k, count tuple_eqb k s) (value_counts s)
            /\ 1 <= count tuple_eqb k s.
Proof.
  intros H. pose proof (proj2 (@count_pos _ _ tuple_eqb_eq s k) H) as Hpos.
  split; [| lia]. apply value_counts_In. split; [reflexivity | exact Hpos].
Qed.

End KeysMore.

(** X13.  The counts of [combo] and of [permutation] each add up to the
    number of rows of the table, so every roll is tallied exactly once; both
    tables list their keys with larger counts first, and neither has more
    keys than the table has rows. *)
Theorem combo_permutation_totals :
  forall (A : Type) (FA : Face A) (a : Analyzer A) (df : DataFrame A),
    _df_results a = Some df ->
    exists tc tp : list (list A * nat),
      fst (combo a) = Ok tc /\
      fst (permutation a) = Ok tp /\
      list_sum (map snd tc) = length (values df) /\
      list_sum (map snd tp) = length (values df) /\
      StronglySorted count_ge tc /\
      StronglySorted count_ge tp /\
      (length tc <= length (values df))%nat /\
      (length tp <= length (values df))%nat.
Proof.
  intros A FA a df Hdf. unfold combo, permutation. rewrite Hdf.
  eexists _, _. split; [reflexivity |]. split; [reflexivity |].
  unfold apply_rows. rewrite map_id.
  rewrite !value_counts_total, !value_counts_length, length_map.
  repeat split; try apply sort_counts_descending.
  - rewrite <- (length_map sorted (values df)). apply unique_tuples_length_le.
  - apply unique_tuples_length_le.
Qed.

Lemma combo_permutation_totals_witness :
  exists tc tp : list (list Z * nat),
    fst (combo (analyzer_of table_3x2)) = Ok tc /\
    fst (permutation (analyzer_of table_3x2)) = Ok tp /\
    list_sum (map snd tc) = 3%nat /\
    list_sum (map snd tp) = 3%nat /\
    StronglySorted count_ge tc /\
    StronglySorted count_ge tp /\
    (length tc <= 3)%nat /\
    (length tp <= 3)%nat.
Proof.
  exact (@combo_permutation_totals Z Face_Z (analyzer_of table_3x2)
           table_3x2 eq_refl).
Defined.

(** X14.  How the keys of the two tables relate to the rows.  Every key
    of [combo] is in ascending order and is a rearrangement of some row;
    every key of [permutation] is a row.  Conversely every row is tallied
    in both: its sorted form is a key of [combo], the row itself a key of
    [permutation], and the first count is at least the second.  [combo]
    never has more keys than [permutation]. *)
Theorem combo_permutation_keys_of_rows :
  forall (A : Type) (FA : Face A) (a : Analyzer A) (df : DataFrame A),
    _df_results a = Some df ->
    exists tc tp : list (list A * nat),
      fst (combo a) = Ok tc /\
      fst (permutation a) = Ok tp /\
      (forall k c, In (k, c) tc ->
         StronglySorted face_le k /\
         exists row, In row (values df) /\ Permutation row k) /\
      (forall k c, In (k, c) tp -> In k (values df)) /\
      (forall row, In row (values df) ->
         exists c c',
           In (sorted row, c) tc /\ In (row, c') tp /\
           (1 <= c')%nat /\ (c' <= c)%nat) /\
      (length tc <= length tp)%nat.
Proof.
  intros A FA a df Hdf. unfold combo, permutation. rewrite Hdf.
  eexists _, _. split; [reflexivity |]. split; [reflexivity |].
  unfold apply_rows. rewrite map_id. cbn [fst].
  split; [| split; [| split]].
  - intros k c H. apply value_counts_key in H.
    apply in_map_iff in H. destruct H as (row & <- & Hrow).
    split; [apply sorted_ascending |].
    exists row. split; [exact Hrow | apply Permutation_sym, sorted_perm].
  - intros k c H. now apply value_counts_key in H.
  - intros row Hrow.
    destruct (value_counts_of_row (values df) row Hrow) as (Hp & Hpos).
    destruct (value_counts_of_row (map sorted (values df)) (sorted row)
                (in_map sorted _ _ Hrow)) as (Hc & _).
    eexists _, _. split; [exact Hc |]. split; [exact Hp |].
    split; [exact Hpos |].
    apply (@count_map_le _ _ tuple_eqb_eq _ _ tuple_eqb_eq).
  - rewrite !value_counts_length.
    apply (@unique_map_length _ _ tuple_eqb_eq _ _ tuple_eqb_eq).
Qed.

Lemma combo_permutation_keys_of_rows_witness :
  exists tc tp : list (list Z * nat),
    fst (combo (analyzer_of table_3x2)) = Ok tc /\
    fst (permutation (analyzer_of table_3x2)) = Ok tp /\
    (forall k c, In (k, c) tc ->
       StronglySorted face_le k /\
       exists row, In row (values table_3x2) /\ Permutation row k) /\
    (forall k c, In (k, c) tp -> In k (values table_3x2)) /\
    (forall row, In row (values table_3x2) ->
       exists c c',
         In (sorted row, c) tc /\ In (row, c') tp /\
         (1 <= c')%nat /\ (c' <= c)%nat) /\
    (length tc <= length tp)%nat.
Proof.
  exact (@combo_permutation_keys_of_rows Z Face_Z (analyzer_of table_3x2)
           table_3x2 eq_refl).
Defined.

(** ** From a game to its statistics *)

Section Pipeline.

Context {A : Type} {FA : Face A}.

(** The table a successful play over at least one die stores. *)
Lemma play_table (g : Game A) (n : Z) (rs : Np.RandomState) :
  (0 <= n)%Z ->
  Forall (fun d => rollable d = true) (dice g) ->
  dice g <> [] ->
  exists (rows : list (list A)) (rs' : Np.RandomState),
    play g n rs =
      (Ok tt,
       (mkGame (dice g)
               (Some (mkDataFrame [Some "roll_number"%string]
                                  (map (fun i => [LInt i]) (seq 0 (Z.to_nat n)))
                                  (map LInt (seq 0 (length (dice g))))
                                  rows)),
        rs')) /\
    length rows = Z.to_nat n /\
    Forall (fun row => length row = length (dice g)) rows /\
    Forall (fun row => Forall2 (fun d x => In x (die_faces d)) (dice g) row)
           rows.
Proof.
  intros Hn Hd Hne.
  destruct (play_ok g rs Hn Hd) as (cols & df & rs' & Hplay & Hdf & Hk & Hlen & Hf).
  destruct cols as [| c cols].
  { simpl in Hk. destruct (dice g); [congruence | discriminate]. }
  rewrite (pd_DataFrame_uniform Hlen) in Hdf. apply Ok_inj in Hdf. subst df.
  destruct (rows_of_shape Hlen) as (Hrl & Hrs).
  exists (rows_of (Z.to_nat n) (c :: cols)), rs'.
  rewrite Hk in *.
  split; [exact Hplay |]. split; [exact Hrl |]. split; [exact Hrs |].
  pose proof (rows_of_cells Hlen) as Hrows.
  rewrite Forall_forall in Hrows |- *. intros row Hrow.
  eapply cells_of_dice; eauto.
Qed.

Lemma Forall2_In_r {X Y : Type} (P : X -> Y -> Prop) (l : list X)
      (l' : list Y) (y : Y) :
  Forall2 P l l' -> In y l' -> exists x, In x l /\ P x y.
Proof.
  induction 1 as [| x y' l l' Hxy _ IH]; simpl; [tauto |].
  intros [<- | Hy].
  - exists x. auto.
  - destruct (IH Hy) as (x' & Hx' & Hp). exists x'. auto.
Qed.

End Pipeline.

(** X15.  The whole chain.  After a successful [play(n)] over [k >= 1]
    dice, an Analyzer built from the game holds the table just stored and
    every statistic succeeds on it: the jackpot count is at most [n]; the
    face counts have [n] rows, each adding up to [k], under columns that
    are faces of the dice; the [combo] and [permutation] counts each add up
    to [n] and their keys have [k] cells. *)
Theorem play_then_analyze :
  forall (A : Type) (FA : Face A) (g : Game A) (n : Z) (rs : Np.RandomState),
    (0 <= n)%Z ->
    Forall (fun d => rollable d = true) (dice g) ->
    dice g <> [] ->
    exists (g' : Game A) (rs' : Np.RandomState) (a : Analyzer A)
           (wide : DataFrame A),
      play g n rs = (Ok tt, (g', rs')) /\
      show g' "wide" = Ok (Some wide) /\
      Analyzer_init (IsGame g') = Ok a /\
      _df_results a = Some wide /\
      length (values wide) = Z.to_nat n /\
      (exists c, fst (jackpot a) = Ok c /\ (c <= Z.to_nat n)%nat) /\
      (exists t,
          fst (face_counts_per_roll a) = Ok t /\
          length (fc_values t) = Z.to_nat n /\
          Forall (fun cells => list_sum cells = length (dice g)) (fc_values t) /\
          forall v, In v (fc_columns t) ->
                    exists d, In d (dice g) /\ In v (die_faces d)) /\
      (exists tc,
          fst (combo a) = Ok tc /\
          list_sum (map snd tc) = Z.to_nat n /\
          forall k c, In (k, c) tc -> length k = length (dice g)) /\
      (exists tp,
          fst (permutation a) = Ok tp /\
          list_sum (map snd tp) = Z.to_nat n /\
          forall k c, In (k, c) tp -> length k = length (dice g)).
Proof.
  intros A FA g n rs Hn Hd Hne.
  destruct (play_table g rs Hn Hd Hne) as (rows & rs' & Hplay & Hlen & Hk & Hcells).
  set (wide := mkDataFrame [Some "roll_number"%string]
                 (map (fun i => [LInt i]) (seq 0 (Z.to_nat n)))
                 (map LInt (seq 0 (length (dice g)))) rows) in *.
  exists (mkGame (dice g) (Some wide)), rs',
         (mkAnalyzer (mkGame (dice g) (Some wide)) (Some wide)
                     None None None None), wide.
  split; [exact Hplay |]. split; [reflexivity |]. split; [reflexivity |].
  split; [reflexivity |]. split; [exact Hlen |].
  rewrite Forall_forall in Hk, Hcells.
  split; [| split; [| split]].
  - eexists. split; [reflexivity |].
    cbn [_df_results values wide]. unfold apply_rows.
    rewrite <- Hlen, <- (length_map (fun x : list A =>
                                      (length (unique face_eqb x) =? 1)%nat) rows).
    apply filter_length_le.
  - eexists. split; [reflexivity |].
    cbn [_df_results values wide fc_values fc_columns].
    split; [now rewrite length_map |]. split.
    + apply Forall_forall. intros cells Hc.
      apply in_map_iff in Hc. destruct Hc as (row & <- & Hrow).
      rewrite <- (Hk row Hrow). apply row_counts_sum.
      * apply (@unique_NoDup _ _ face_eqb_eq).
      * intros x Hx. apply observed_faces. eauto.
    + intros v Hv. apply observed_faces in Hv.
      destruct Hv as (row & Hrow & Hin).
      exact (@Forall2_In_r _ _ _ _ _ v (Hcells row Hrow) Hin).
  - eexists. split; [reflexivity |].
    cbn [_df_results values wide]. unfold apply_rows.
    split; [now rewrite value_counts_total, length_map |].
    intros k c H. apply value_counts_key in H.
    apply in_map_iff in H. destruct H as (row & <- & Hrow).
    rewrite (Permutation_length (sorted_perm row)). now apply Hk.
  - eexists. split; [reflexivity |].
    cbn [_df_results values wide]. unfold apply_rows. rewrite map_id.
    split; [now rewrite value_counts_total |].
    intros k c H. apply value_counts_key in H. now apply Hk.
Qed.

Lemma play_then_analyze_witness :
  exists (g' : Game Z) (rs' : Np.RandomState) (a : Analyzer Z)
         (wide : DataFrame Z),
    play fresh_game 3 tape = (Ok tt, (g', rs')) /\
    show g' "wide" = Ok (Some wide) /\
    Analyzer_init (IsGame g') = Ok a /\
    _df_results a = Some wide /\
    length (values wide) = 3%nat /\
    (exists c, fst (jackpot a) = Ok c /\ (c <= 3)%nat) /\
    (exists t,
        fst (face_counts_per_roll a) = Ok t /\
        length (fc_values t) = 3%nat /\
        Forall (fun cells => list_sum cells = 2%nat) (fc_values t) /\
        forall v, In v (fc_columns t) ->
                  exists d, In d (dice fresh_game) /\ In v (die_faces d)) /\
    (exists tc,
        fst (combo a) = Ok tc /\
        list_sum (map snd tc) = 3%nat /\
        forall k c, In (k, c) tc -> length k = 2%nat) /\
    (exists tp,
        fst (permutation a) = Ok tp /\
        list_sum (map snd tp) = 3%nat /\
        forall k c, In (k, c) tp -> length k = 2%nat).
Proof.
  apply (@play_then_analyze Z Face_Z fresh_game 3%Z tape).
  - vm_compute. discriminate.
  - repeat constructor.
  - discriminate.
Defined.

Section LoadedDice.

Context {A : Type} {FA : Face A}.

(** What holds of every successful roll holds of every column the loop of
    [play] collects. *)
Lemma roll_each_columns (P : Die A -> list A -> Prop) (n : Z)
      (ds : list (Die A)) :
  (forall d, In d ds ->
             forall rs l st, roll d n rs = (Ok l, st) -> P d l) ->
  forall acc rs res st,
    roll_each ds n acc rs = (Ok res, st) ->
    exists cols, res = acc ++ cols /\ Forall2 P ds cols.
Proof.
  induction ds as [| d ds IH]; intros HP acc rs res st H; simpl in H.
  - inversion H; subst. exists []. rewrite app_nil_r. split; constructor.
  - destruct (roll d n rs) as [[r | e] [d' rs']] eqn:Er; [| discriminate].
    destruct (roll_each ds n (acc ++ [r]) rs') as [res' [rest' rs'']] eqn:Ee.
    inversion H; subst res'.
    destruct (IH (fun d0 Hd0 => HP d0 (or_intror Hd0)) _ _ _ _ Ee)
      as (cols & -> & Hcols).
    exists (r :: cols). rewrite <- app_assoc. split; [reflexivity |].
    constructor; [| exact Hcols].
    eapply HP; [now left | exact Er].
Qed.

Lemma loaded_roll (f : A) (d : Die A) (n : Z) (rs : Np.RandomState)
      (l : list A) (st : Die A * Np.RandomState) :
  loaded_on f d -> (0 <= n)%Z ->
  roll d n rs = (Ok l, st) -> Forall (fun x => x = f) l.
Proof.
  intros (Hnd & Hr & HT & Hz) Hn Hroll.
  destruct (roll_ok d rs Hr Hn) as (l' & Hl' & _ & Hin).
  rewrite Hl' in Hroll. inversion Hroll; subst l'.
  rewrite Forall_forall in Hin |- *. intros x Hx.
  destruct (face_eqb x f) eqn:E; [now apply face_eqb_eq |].
  assert (Hne : x <> f) by (intros ->; now rewrite face_eqb_refl in E).
  destruct (Hz x (Hin x Hx) Hne) as (w & Hw & Hw0).
  exfalso.
  exact (@roll_avoids_zero_weight A FA d x w n rs Hnd Hw Hw0 Hr HT Hn
           l _ Hl' Hx).
Qed.

Lemma constant_cells (f : A) (cols : list (list A)) (row : list A) :
  Forall (Forall (fun x => x = f)) cols ->
  Forall2 (fun c x => In x c) cols row ->
  Forall (fun x => x = f) row.
Proof.
  intros Hc H. induction H as [| c x cols row Hx _ IH]; [constructor |].
  inversion Hc as [| ? ? Hcf Hrest]; subst.
  constructor; [| now apply IH].
  rewrite Forall_forall in Hcf. now apply Hcf.
Qed.

End LoadedDice.

(** X16.  Dice loaded on one face always hit the jackpot.  When every die
    of a game has all its weight on the same face, [play(n)] stores a table
    whose every cell is that face, and [jackpot] on an Analyzer of the game
    returns [n]: every roll is a jackpot. *)
Theorem loaded_dice_always_jackpot :
  forall (A : Type) (FA : Face A) (f : A) (g : Game A) (n : Z)
         (rs : Np.RandomState),
    (0 <= n)%Z ->
    dice g <> [] ->
    Forall (loaded_on f) (dice g) ->
    exists (g' : Game A) (rs' : Np.RandomState) (a : Analyzer A)
           (wide : DataFrame A),
      play g n rs = (Ok tt, (g', rs')) /\
      Analyzer_init (IsGame g') = Ok a /\
      _df_results a = Some wide /\
      length (values wide) = Z.to_nat n /\
      Forall (fun row => row = repeat f (length (dice g))) (values wide) /\
      fst (jackpot a) = Ok (Z.to_nat n).
Proof.
  intros A FA f g n rs Hn Hne Hload.
  assert (Hd : Forall (fun d => rollable d = true) (dice g)).
  { rewrite Forall_forall in Hload |- *. intros d Hin.
    now destruct (Hload d Hin) as (_ & Hr & _). }
  destruct (roll_each_ok Hn Hd [] rs) as (cols & rs' & Hre & Hk & Hlen & _).
  destruct (@roll_each_columns A (fun _ l => Forall (fun x => x = f) l) n (dice g))
    with (acc := @nil (list A)) (rs := rs) (res := [] ++ cols)
         (st := (dice g, rs')) as (cols' & Hc & Hcols); [| exact Hre |].
  { intros d Hin rs0 l st Hroll. rewrite Forall_forall in Hload.
    exact (@loaded_roll A FA f d n rs0 l st (Hload d Hin) Hn Hroll). }
  simpl in Hc. subst cols'.
  assert (Hall : Forall (Forall (fun x => x = f)) cols).
  { clear - Hcols. induction Hcols; constructor; auto. }
  destruct cols as [| c cols].
  { simpl in Hk. destruct (dice g); [congruence | discriminate]. }
  destruct (rows_of_shape Hlen) as (Hrl & Hrs).
  pose proof (rows_of_cells Hlen) as Hcells.
  set (rows := rows_of (Z.to_nat n) (c :: cols)) in *.
  set (wide := mkDataFrame [Some "roll_number"%string]
                 (map (fun i => [LInt i]) (seq 0 (Z.to_nat n)))
                 (map LInt (seq 0 (length (c :: cols)))) rows).
  assert (Hrows : Forall (fun row => row = repeat f (length (dice g))) rows).
  { rewrite Forall_forall in Hrs, Hcells |- *. intros row Hrow.
    pose proof (constant_cells Hall (Hcells row Hrow)) as Hf.
    rewrite <- Hk, <- (Hrs row Hrow). clear - Hf.
    induction Hf as [| x row Hx _ IH]; [reflexivity |].
    simpl. now rewrite Hx, <- IH. }
  exists (mkGame (dice g) (Some wide)), rs',
         (mkAnalyzer (mkGame (dice g) (Some wide)) (Some wide)
                     None None None None), wide.
  split.
  { unfold play. rewrite Hre. simpl app.
    now rewrite (pd_DataFrame_uniform Hlen). }
  split; [reflexivity |]. split; [reflexivity |].
  split; [exact Hrl |]. split; [exact Hrows |].
  unfold jackpot. cbn [_df_results fst values wide]. f_equal.
  unfold apply_rows. rewrite filter_id_map, <- Hrl.
  f_equal. apply filter_all. intros row Hrow.
  rewrite Forall_forall in Hrows. rewrite (Hrows row Hrow).
  apply unique_one_constant. exists f. split.
  - destruct (dice g); [congruence | discriminate].
  - intros y Hy. now apply repeat_spec in Hy.
Qed.

Lemma loaded_dice_always_jackpot_witness :
  exists (g' : Game Z) (rs' : Np.RandomState) (a : Analyzer Z)
         (wide : DataFrame Z),
    play (Game_init [loaded_die; loaded_die]) 4 tape = (Ok tt, (g', rs')) /\
    Analyzer_init (IsGame g') = Ok a /\
    _df_results a = Some wide /\
    length (values wide) = 4%nat /\
    Forall (fun row => row = [2; 2]%Z) (values wide) /\
    fst (jackpot a) = Ok 4%nat.
Proof.
  assert (Hl : loaded_on 2%Z loaded_die).
  { split; [| split; [| split]].
    - repeat constructor; simpl; intuition discriminate.
    - vm_compute. reflexivity.
    - vm_compute. reflexivity.
    - intros g0 [<- | [<- | []]] Hne.
      + exists 0%float. split; reflexivity.
      + exfalso. now apply Hne. }
  apply (@loaded_dice_always_jackpot Z Face_Z 2%Z
           (Game_init [loaded_die; loaded_die]) 4%Z tape).
  - vm_compute. discriminate.
  - discriminate.
  - constructor; [exact Hl | constructor; [exact Hl | constructor]].
Defined.

Section StatsFrame.

Context {A : Type} {FA : Face A}.

(** What a statistic returns is decided by the stored table alone. *)
Lemma stats_of_table (a1 a2 : Analyzer A) :
  _df_results a1 = _df_results a2 ->
  fst (jackpot a1) = fst (jackpot a2) /\
  fst (face_counts_per_roll a1) = fst (face_counts_per_roll a2) /\
  fst (combo a1) = fst (combo a2) /\
  fst (permutation a1) = fst (permutation a2).
Proof.
  intros H. unfold jackpot, face_counts_per_roll, combo, permutation.
  rewrite H. destruct (_df_results a2); repeat split.
Qed.

Lemma call_stat_frame (a : Analyzer A) (s : stat) :
  _df_results (call_stat a s) = _df_results a /\
  game (call_stat a s) = game a.
Proof.
  destruct s; simpl;
    unfold jackpot, face_counts_per_roll, combo, permutation;
    destruct (_df_results a) eqn:E; simpl; auto.
Qed.

Lemma call_stats_snoc (a : Analyzer A) (calls : list stat) (s : stat) :
  call_stats a (calls ++ [s]) = call_stat (call_stats a calls) s.
Proof. unfold call_stats. now rewrite fold_left_app. Qed.

Lemma call_stats_frame (a : Analyzer A) (calls : list stat) :
  _df_results (call_stats a calls) = _df_results a /\
  game (call_stats a calls) = game a.
Proof.
  induction calls as [| s calls IH] using rev_ind; [auto |].
  rewrite call_stats_snoc.
  destruct (call_stat_frame (call_stats a calls) s) as (H1 & H2).
  destruct IH as (H3 & H4). split; congruence.
Qed.

(** A call fills the cache of its statistic when it succeeds and touches
    no other cache. *)
Lemma call_stat_caches (a : Analyzer A) (s : stat) :
  jackpot_count (call_stat a s) =
    match s, fst (jackpot a) with
    | CallJackpot, Ok c => Some c
    | _, _ => jackpot_count a
    end /\
  face_counts (call_stat a s) =
    match s, fst (face_counts_per_roll a) with
    | CallFaceCounts, Ok t => Some t
    | _, _ => face_counts a
    end /\
  combo_counts (call_stat a s) =
    match s, fst (combo a) with
    | CallCombo, Ok t => Some t
    | _, _ => combo_counts a
    end /\
  permutation_counts (call_stat a s) =
    match s, fst (permutation a) with
    | CallPermutation, Ok t => Some t
    | _, _ => permutation_counts a
    end.
Proof.
  destruct s; simpl;
    unfold jackpot, face_counts_per_roll, combo, permutation;
    destruct (_df_results a); simpl; auto.
Qed.

End StatsFrame.

(** X17.  The statistics read the table and write only their own cache.
    After any run of calls to [jackpot], [face_counts_per_roll], [combo] and
    [permutation], in any order and any number of times, the analyzer still
    holds the table and the game it was built with, every statistic still
    returns what it returned at the start, and the cache of each statistic
    that was called and succeeded holds that result. *)
Theorem statistics_in_any_order :
  forall (A : Type) (FA : Face A) (a : Analyzer A) (calls : list stat),
    _df_results (call_stats a calls) = _df_results a /\
    game (call_stats a calls) = game a /\
    fst (jackpot (call_stats a calls)) = fst (jackpot a) /\
    fst (face_counts_per_roll (call_stats a calls))
      = fst (face_counts_per_roll a) /\
    fst (combo (call_stats a calls)) = fst (combo a) /\
    fst (permutation (call_stats a calls)) = fst (permutation a) /\
    (forall c, In CallJackpot calls -> fst (jackpot a) = Ok c ->
               jackpot_count (call_stats a calls) = Some c) /\
    (forall t, In CallFaceCounts calls ->
               fst (face_counts_per_roll a) = Ok t ->
               face_counts (call_stats a calls) = Some t) /\
    (forall t, In CallCombo calls -> fst (combo a) = Ok t ->
               combo_counts (call_stats a calls) = Some t) /\
    (forall t, In CallPermutation calls -> fst (permutation a) = Ok t ->
               permutation_counts (call_stats a calls) = Some t).
Proof.
  intros A FA a calls.
  destruct (call_stats_frame a calls) as (Hdf & Hg).
  destruct (stats_of_table _ _ Hdf) as (Hj & Hf & Hc & Hp).
  split; [exact Hdf |]. split; [exact Hg |].
  split; [exact Hj |]. split; [exact Hf |].
  split; [exact Hc |]. split; [exact Hp |].
  clear Hdf Hg Hj Hf Hc Hp.
  induction calls as [| s calls IH] using rev_ind.
  - repeat split; intros ? [].
  - destruct IH as (IHj & IHf & IHc & IHp).
    rewrite call_stats_snoc.
    destruct (call_stats_frame a calls) as (Hdf & _).
    destruct (stats_of_table _ _ Hdf) as (Hj & Hf & Hc & Hp).
    destruct (call_stat_caches (call_stats a calls) s) as (Cj & Cf & Cc & Cp).
    rewrite Cj, Cf, Cc, Cp, Hj, Hf, Hc, Hp.
    assert (Hin : forall s0, In s0 (calls ++ [s]) -> s0 <> s -> In s0 calls).
    { intros s0 H Hne. apply in_app_or in H.
      destruct H as [H | [H | []]]; [exact H | congruence]. }
    repeat split; intros r Hr Hres; rewrite Hres;
      destruct s; try reflexivity;
      first [ apply IHj | apply IHf | apply IHc | apply IHp ];
      try exact Hres; apply Hin; try exact Hr; discriminate.
Qed.

Lemma statistics_in_any_order_witness :
  combo_counts (call_stats (analyzer_of table_3x2)
                  [CallCombo; CallJackpot; CallPermutation; CallCombo])
    = Some [([1; 2]%Z, 2%nat); ([1; 1]%Z, 1%nat)] /\
  jackpot_count (call_stats (analyzer_of table_3x2)
                   [CallCombo; CallJackpot; CallPermutation; CallCombo])
    = Some 1%nat.
Proof.
  destruct (@statistics_in_any_order Z Face_Z (analyzer_of table_3x2)
              [CallCombo; CallJackpot; CallPermutation; CallCombo])
    as (_ & _ & _ & _ & _ & _ & Hj & _ & Hc & _).
  split.
  - apply Hc; [simpl; auto | reflexivity].
  - apply Hj; [simpl; auto | reflexivity].
Defined.
